(** * Simphony: waveguide models and circuit simulators

    A shallow embedding of [simphony/simulators.py] and of
    [simphony/elements/ebeam_wg_integral_1550/models.py].

    Conventions of the embedding.
    - A numpy [float64] is a real number of [R]; a numpy [complex128] is a
      pair of reals.  Rounding is therefore not modelled: every statement
      below is about the exact arithmetic the code writes down.
    - A Python exception is a value of [PyError]; code that can raise returns
      a [Result].
    - Code of the repository that is not part of the two embedded files (the
      circuit reduction engine, the pin classes, the unit helpers, the
      coefficient files) is either a parameter or a definition whose comment
      starts with "Modelled from the spec". *)

From Stdlib Require Import String.
From Stdlib Require Import Reals Lra Lia ZArith Bool List.
Import ListNotations.
Open Scope R_scope.

(** ** Python exceptions and fallible code *)

Inductive PyError : Type :=
| RuntimeError (msg : string)
| ValueError (msg : string)
| TypeError (msg : string)
| IndexError (msg : string)
| ZeroDivisionError (msg : string).

Inductive Result (A : Type) : Type :=
| Ok (a : A)
| Raise (e : PyError).

Arguments Ok {A} a.
Arguments Raise {A} e.

Definition rbind {A B} (r : Result A) (k : A -> Result B) : Result B :=
  match r with
  | Ok a => k a
  | Raise e => Raise e
  end.

Declare Scope result_scope.
Delimit Scope result_scope with result.
Notation "x <- r ;; k" := (rbind r (fun x => k))
  (at level 61, r at next level, right associativity) : result_scope.
Open Scope result_scope.

(** [for x in xs: s = body(x, s)], stopping at the first exception. *)
Fixpoint for_each {S : Type} (xs : list nat) (body : nat -> S -> Result S)
  (s : S) : Result S :=
  match xs with
  | [] => Ok s
  | x :: rest => s' <- body x s ;; for_each rest body s'
  end.

(** [range(n)] *)
Definition range (n : nat) : list nat := seq 0 n.

(** ** The part of numpy the two files use *)

Module np.

(** [complex128] *)
Definition complex : Type := (R * R)%type.

Definition re (z : complex) : R := fst z.
Definition im (z : complex) : R := snd z.
Definition czero : complex := (0, 0).

Definition cmul (a b : complex) : complex :=
  (re a * re b - im a * im b, re a * im b + im a * re b).
Definition cadd (a b : complex) : complex := (re a + re b, im a + im b).

(** [np.exp] on a complex number: [e^(a+ib) = e^a (cos b + i sin b)]. *)
Definition exp (z : complex) : complex :=
  (Rtrigo_def.exp (re z) * cos (im z), Rtrigo_def.exp (re z) * sin (im z)).

(** [np.abs] on a complex number. *)
Definition abs (z : complex) : R := sqrt (re z * re z + im z * im z).

(** [np.log10] on a real number. *)
Definition log10 (x : R) : R := ln x / ln 10.

(** A stack of square complex matrices, one per frequency sample:
    an array of shape [(n, p, p)]. *)
Definition matrix : Type := list (list complex).
Definition stack : Type := list matrix.

(** [np.zeros((n, 2, 2), dtype=complex)] *)
Definition zeros22 (n : nat) : stack :=
  repeat [[czero; czero]; [czero; czero]] n.

(** Replacing the element at a valid index. *)
Fixpoint replace {A} (l : list A) (n : nat) (v : A) : list A :=
  match l, n with
  | [], _ => []
  | _ :: t, O => v :: t
  | h :: t, S n' => h :: replace t n' v
  end.

(** [a[x]] on a one-dimensional array. *)
Definition getitem {A} (a : list A) (x : nat) : Result A :=
  match nth_error a x with
  | Some v => Ok v
  | None => Raise (IndexError "index out of bounds")
  end.

(** [mat[x, i, j] = v] *)
Definition setitem (mat : stack) (x i j : nat) (v : complex) : Result stack :=
  m <- getitem mat x ;;
  row <- getitem m i ;;
  _ <- getitem row j ;;
  Ok (replace mat x (replace m i (replace row j v))).

(** [np.flip] on a one-dimensional array. *)
Definition flip {A} (a : list A) : list A := rev a.

(** [np.linspace(start, stop, num)] from numpy's documentation: [num]
    evenly spaced samples over the closed interval, [ValueError] for a
    negative [num]. *)
Definition linspace (start stop : R) (num : Z) : Result (list R) :=
  if (num <? 0)%Z
  then Raise (ValueError "Number of samples must be non-negative.")
  else
    let n := Z.to_nat num in
    let step := (stop - start) / INR (n - 1) in
    Ok (map (fun i => match n with
                      | 1%nat => start
                      | _ => start + INR i * step
                      end) (range n)).

(** [a @ v] for a two-dimensional [a] and a one-dimensional [v]. *)
Definition dot (row v : list R) : R :=
  fold_left Rplus (map (fun p => fst p * snd p) (combine row v)) 0.

Definition matmul (ncols : nat) (a : list (list R)) (v : list R)
  : Result (list R) :=
  if Nat.eqb ncols (length v)
  then Ok (map (fun row => dot row v) a)
  else Raise (ValueError "matmul: mismatch in core dimension").

End np.

(** ** itertools *)

(** [itertools.combinations_with_replacement(pool, r)], in its
    lexicographic order. *)
Fixpoint comb_w_r (r : nat) : list nat -> list (list nat) :=
  match r with
  | O => fun _ => [[]]
  | S r' =>
      fix go (pool : list nat) : list (list nat) :=
        match pool with
        | [] => []
        | x :: rest => map (cons x) (comb_w_r r' (x :: rest)) ++ go rest
        end
  end.

(** ** elements/ebeam_wg_integral_1550/models.py *)

Definition c0 : R := 299792458.
Definition TE_loss : R := 700.

(** [alpha = TE_loss/(20*np.log10(np.exp(1)))] *)
Definition alpha : R := TE_loss / (20 * np.log10 (Rtrigo_def.exp 1)).

(** The value both models store at [mat[x,0,1]] and [mat[x,1,0]]:
    [np.exp(-alpha*L + (k*L*1j))]. *)
Definition transmission (k L : R) : np.complex :=
  np.exp (- alpha * L, k * L).

(** The loop body shared by both models:
    [mat[x,0,1] = mat[x,1,0] = np.exp(-alpha*L + (K[x]*L*1j))]. *)
Definition build_entry (K : list R) (L : R) (x : nat) (mat : np.stack)
  : Result np.stack :=
  k <- np.getitem K x ;;
  let v := transmission k L in
  mat1 <- np.setitem mat x 0 1 v ;;
  np.setitem mat1 x 1 0 v.

Module ANN_WG.

(** [cartesian_product(arrays)]: every combination of one element per
    array, the first array varying slowest. *)
Fixpoint cartesian_product (arrays : list (list R)) : list (list R) :=
  match arrays with
  | [] => [[]]
  | a :: rest =>
      flat_map (fun x => map (cons x) (cartesian_product rest)) a
  end.

(** The exponent tuples of the polynomial features: all multisets of at
    most 4 of the 4 input columns. *)
Definition combos : list (list nat) :=
  flat_map (fun i => comb_w_r i (range 4)) (range 5).

(** One row of [polyCombos]: for each tuple, the product of the selected
    input columns (1 for the empty tuple). *)
Definition poly_row (input : list R) : list R :=
  map (fun c => fold_left (fun acc k => acc * nth k input 0) c 1) combos.

(** [straightWaveguide(wavelength, width, thickness, angle)] for an array
    [wavelength] and scalar [width], [thickness], [angle].  [coeffs] is
    the content of [straightCoeffs.npy].  [np.squeeze] turns an array of
    one element into a zero-dimensional array, on which the [len] of
    [cartesian_product] raises. *)
Definition straightWaveguide (coeffs : list R) (wavelength : list R)
  (width thickness angle : R) : Result (list R) :=
  if Nat.eqb (length wavelength) 1
  then Raise (TypeError "len() of unsized object")
  else
    let INPUT :=
      cartesian_product [wavelength; [width]; [thickness]; [angle]] in
    let polyCombos := map poly_row INPUT in
    np.matmul (length combos) polyCombos coeffs.

Definition get_s_parameters (coeffs : list R) (frequency : list R)
  (length width thickness delta_length : R)
  : Result (list R * np.stack) :=
  let mat := np.zeros22 (List.length frequency) in
  let waveguideLength := length + (length * delta_length) in
  let wl := map (fun f => c0 / f) frequency in
  neff <- straightWaveguide coeffs wl width thickness 90 ;;
  let K := map (fun p => 2 * PI * (fst p / snd p)) (combine neff wl) in
  s <- for_each (range (List.length neff))
             (build_entry K waveguideLength) mat ;;
  Ok (frequency, s).

End ANN_WG.

Module Lumerical_1550.

(** The numbers read from the first line of
    ["WaveGuideTETMStrip,w=500,h=220.txt"]: fields 0, 1, 3 and 5. *)
Record Coeffs : Type := {
  lam0 : R;  (* center wavelength *)
  ne : R;    (* effective index *)
  ng : R;    (* group index *)
  nd : R     (* group dispersion *)
}.

Definition get_s_parameters (coeffs : Coeffs) (frequency : list R)
  (length width thickness delta_length : R)
  : Result (list R * np.stack) :=
  let mat := np.zeros22 (List.length frequency) in
  let w := map (fun f => f * 2 * PI) frequency in
  let w0 := (2 * PI * c0) / lam0 coeffs in
  let K :=
    map (fun wx =>
           2 * PI * ne coeffs / lam0 coeffs
           + (ng coeffs / c0) * (wx - w0)
           - (nd coeffs * (lam0 coeffs) ^ 2 / (4 * PI * c0))
             * ((wx - w0) ^ 2)) w in
  s <- for_each (range (List.length frequency))
             (build_entry K length) mat ;;
  Ok (frequency, s).

End Lumerical_1550.

(** ** simphony/simulators.py *)

(** *** What the simulators import *)

(** A numpy array of frequencies as the simulators meet it: the
    zero-dimensional array [np.array(freq)] or a one-dimensional array. *)
Inductive ndarray : Type :=
| Scalar0 (x : R)
| Array1 (xs : list R).

Definition ndarray_map (f : R -> R) (a : ndarray) : ndarray :=
  match a with
  | Scalar0 x => Scalar0 (f x)
  | Array1 xs => Array1 (map f xs)
  end.

(** Modelled from the spec: [simphony.tools] is not among the embedded
    files; "frequency = speed_of_light / wavelength", and the conversion
    back is the same division. *)
Definition SPEED_OF_LIGHT : R := 299792458.
Definition wl2freq (wl : R) : R := SPEED_OF_LIGHT / wl.

(** [wl2freq(wl)] called on a Python float: the division raises for a zero
    wavelength. *)
Definition call_wl2freq (wl : R) : Result R :=
  if Req_dec_T wl 0
  then Raise (ZeroDivisionError "float division by zero")
  else Ok (wl2freq wl).
Definition freq2wl (freq : R) : R := SPEED_OF_LIGHT / freq.

(** Pins are compared by identity. *)
Definition PinId : Type := nat.

(** Modelled from the spec: [simphony.pins] is not among the embedded
    files; a pin has "at most one connection to another pin", and it is
    connected when it has one. *)
Record Pin : Type := { _connection : option PinId }.

Definition _isconnected (p : Pin) : bool :=
  match _connection p with
  | Some _ => true
  | None => false
  end.

(** [pins.index(p)] with the meaning of Python's [list.index]: the first
    position holding [p], [ValueError] when there is none. *)
Fixpoint index_from (pins : list PinId) (p : PinId) (i : nat) : Result nat :=
  match pins with
  | [] => Raise (ValueError "pin is not in list")
  | q :: rest => if Nat.eqb q p then Ok i else index_from rest p (S i)
  end.

Definition PinList_index (pins : list PinId) (p : option PinId) : Result nat :=
  match p with
  | Some p => index_from pins p 0
  | None => Raise (ValueError "None is not in list")
  end.

(** The two values of [s_parameters_method]. *)
Inductive SParametersMethod : Type :=
| s_parameters
| monte_carlo_s_parameters.

(** The reduced circuit as the simulators use it: its pin ordering and its
    two matrix methods, each from a frequency argument (possibly [None]) to
    a stack of matrices or an exception. *)
Record Subcircuit : Type := {
  sub_pins : list PinId;
  sub_s_parameters : option ndarray -> Result np.stack;
  sub_monte_carlo_s_parameters : option ndarray -> Result np.stack
}.

(** [getattr(subcircuit, s_parameters_method)] *)
Definition getattr (sub : Subcircuit) (m : SParametersMethod)
  : option ndarray -> Result np.stack :=
  match m with
  | s_parameters => sub_s_parameters sub
  | monte_carlo_s_parameters => sub_monte_carlo_s_parameters sub
  end.

(** The component model protocol, as far as the simulators call it.
    [Mdl] is a component together with its current Monte Carlo parameters,
    [Rng] the state of the random generator the redraw consumes.  The circuit
    reduction engine is not among the embedded files: [to_subcircuit] stands
    for [circuit.to_subcircuit(permanent=...)] on the current components. *)
Class Protocol (Mdl Rng : Type) : Type := {
  regenerate_monte_carlo_parameters : Mdl -> Rng -> Mdl * Rng;
  to_subcircuit : list Mdl -> bool -> Result Subcircuit
}.

(** *** State and effects *)

(** The calls a simulation makes on its collaborators, in order. *)
Inductive Event : Type :=
| to_subcircuit_called (permanent : bool)
| method_called (m : SParametersMethod)
| regenerate_called (component : nat).

(** The mutable state a simulation runs in: the components of
    [self.circuit], the random generator, and the calls made so far. *)
Record World (Mdl Rng : Type) : Type := {
  circuit : list Mdl;
  rng : Rng;
  trace : list Event
}.

Arguments circuit {Mdl Rng} w.
Arguments rng {Mdl Rng} w.
Arguments trace {Mdl Rng} w.

(** A computation that may raise and may change the world; what it changed
    before raising stays changed. *)
Definition Sim (Mdl Rng A : Type) : Type :=
  World Mdl Rng -> Result A * World Mdl Rng.

Definition ret {Mdl Rng A} (a : A) : Sim Mdl Rng A := fun w => (Ok a, w).

Definition raise {Mdl Rng A} (e : PyError) : Sim Mdl Rng A :=
  fun w => (Raise e, w).

Definition bind {Mdl Rng A B} (c : Sim Mdl Rng A) (k : A -> Sim Mdl Rng B)
  : Sim Mdl Rng B :=
  fun w =>
    match c w with
    | (Ok a, w') => k a w'
    | (Raise e, w') => (Raise e, w')
    end.

Definition lift {Mdl Rng A} (r : Result A) : Sim Mdl Rng A :=
  fun w => (r, w).

Notation "x <~ c ;; k" := (bind c (fun x => k))
  (at level 61, c at next level, right associativity).

(** Keyword arguments of a [simulate] call: each key is present or not. *)
Record Kwargs : Type := {
  kw_dB : option bool;
  kw_freq : option R;
  kw_freqs : option (option ndarray);
  kw_s_parameters_method : option SParametersMethod
}.

Definition no_kwargs : Kwargs :=
  {| kw_dB := None; kw_freq := None; kw_freqs := None;
     kw_s_parameters_method := None |}.

Definition default {A} (d : A) (o : option A) : A :=
  match o with
  | Some a => a
  | None => d
  end.

(** Truth value of a Python float: false only for zero. *)
Definition truthy (x : R) : bool := if Req_dec_T x 0 then false else true.

(** [a[:, i, j]] on a stack of real matrices. *)
Fixpoint slice (a : list (list (list R))) (i j : nat) : Result (list R) :=
  match a with
  | [] => Ok []
  | m :: rest =>
      row <- np.getitem m i ;;
      v <- np.getitem row j ;;
      vs <- slice rest i j ;;
      Ok (v :: vs)
  end.

Definition map3 {A B} (f : A -> B) (a : list (list (list A)))
  : list (list (list B)) :=
  map (map (map f)) a.

(** The value [simulate] returns for one matrix entry. *)
Definition power_ratio (dB : bool) (z : np.complex) : R :=
  if dB then np.log10 (np.abs z ^ 2) else np.abs z ^ 2.

(** *** class Simulator *)

Record Simulator : Type := {
  pins_input : Pin;
  pins_output : Pin
}.

Inductive Mode : Type := wl | freq.

Record SweepSimulator : Type := {
  base : Simulator;
  mode : Mode;
  freqs : list R
}.

Section Simulators.

Context {Mdl Rng : Type} `{Protocol Mdl Rng}.

(** [self.circuit.to_subcircuit(permanent=...)] on the current components. *)
Definition call_to_subcircuit (permanent : bool) : Sim Mdl Rng Subcircuit :=
  fun w =>
    (to_subcircuit (circuit w) permanent,
     {| circuit := circuit w; rng := rng w;
        trace := trace w ++ [to_subcircuit_called permanent] |}).

(** [getattr(subcircuit, s_parameters_method)(freqs)] *)
Definition call_method (subcircuit : Subcircuit) (m : SParametersMethod)
  (freqs : option ndarray) : Sim Mdl Rng np.stack :=
  fun w =>
    (getattr subcircuit m freqs,
     {| circuit := circuit w; rng := rng w;
        trace := trace w ++ [method_called m] |}).

Definition Simulator__generate (self : Simulator) (freqs : option ndarray)
  (s_parameters_method : SParametersMethod)
  : Sim Mdl Rng (np.stack * list PinId) :=
  if negb (_isconnected (pins_input self))
     || negb (_isconnected (pins_output self))
  then raise (RuntimeError "Simulator must be connected before simulating.")
  else
    subcircuit <~ call_to_subcircuit false ;;
    s_params <~ call_method subcircuit s_parameters_method freqs ;;
    ret (s_params, sub_pins subcircuit).

Definition Simulator_simulate (self : Simulator) (dB : bool) (freq : R)
  (freqs : option ndarray) (s_parameters_method : SParametersMethod)
  : Sim Mdl Rng (option ndarray * list R) :=
  let freqs := if truthy freq then Some (Scalar0 freq) else freqs in
  generated <~ Simulator__generate self freqs s_parameters_method ;;
  let s_params := fst generated in
  let pins := snd generated in
  let power_ratios := map3 (fun z => np.abs z ^ 2) s_params in
  let power_ratios :=
    if dB then map3 np.log10 power_ratios else power_ratios in
  input <~ lift (PinList_index pins (_connection (pins_input self))) ;;
  output <~ lift (PinList_index pins (_connection (pins_output self))) ;;
  column <~ lift (slice power_ratios input output) ;;
  ret (freqs, column).

(** [Simulator.simulate] called with a dictionary of keyword arguments:
    absent keys take their defaults. *)
Definition Simulator_simulate_kw (self : Simulator) (kwargs : Kwargs)
  : Sim Mdl Rng (option ndarray * list R) :=
  Simulator_simulate self
    (default false (kw_dB kwargs))
    (default 0 (kw_freq kwargs))
    (default None (kw_freqs kwargs))
    (default s_parameters (kw_s_parameters_method kwargs)).

(** *** class SweepSimulator *)

Definition SweepSimulator___init__ (start stop : R) (num : Z)
  : Result SweepSimulator :=
  let mode := if Rlt_dec start 1 then wl else freq in
  bounds <- match mode with
            | wl =>
                start' <- call_wl2freq start ;;
                stop' <- call_wl2freq stop ;;
                Ok (start', stop')
            | freq => Ok (start, stop)
            end ;;
  freqs <- np.linspace (fst bounds) (snd bounds) num ;;
  Ok {| base := {| pins_input := {| _connection := None |};
                   pins_output := {| _connection := None |} |};
        mode := mode;
        freqs := freqs |}.

(** [freq2wl(freqs)] on what [Simulator.simulate] returned. *)
Definition freq2wl_array (freqs : option ndarray) : Result (option ndarray) :=
  match freqs with
  | Some a => Ok (Some (ndarray_map freq2wl a))
  | None => Raise (TypeError "unsupported operand type(s) for /")
  end.

Definition SweepSimulator_simulate (self : SweepSimulator) (kwargs : Kwargs)
  : Sim Mdl Rng (option ndarray * list R) :=
  match kw_freqs kwargs with
  | Some _ =>
      raise (TypeError "got multiple values for keyword argument 'freqs'")
  | None =>
      result <~ Simulator_simulate_kw (base self)
                  {| kw_dB := kw_dB kwargs;
                     kw_freq := kw_freq kwargs;
                     kw_freqs := Some (Some (Array1 (freqs self)));
                     kw_s_parameters_method :=
                       kw_s_parameters_method kwargs |} ;;
      let freqs := fst result in
      let power_ratios := snd result in
      match mode self with
      | wl =>
          wavelengths <~ lift (freq2wl_array freqs) ;;
          ret (wavelengths, np.flip power_ratios)
      | freq => ret (freqs, power_ratios)
      end
  end.

(** *** class MonteCarloSweepSimulator *)

(** [for component in self.circuit:
        component.regenerate_monte_carlo_parameters()]
    from component number [i] on. *)
Fixpoint regenerate_from (i : nat) (components : list Mdl) (g : Rng)
  (tr : list Event) : list Mdl * Rng * list Event :=
  match components with
  | [] => ([], g, tr)
  | component :: rest =>
      let (component', g') := regenerate_monte_carlo_parameters component g in
      let '(rest', g'', tr') :=
        regenerate_from (S i) rest g' (tr ++ [regenerate_called i]) in
      (component' :: rest', g'', tr')
  end.

Definition regenerate_all : Sim Mdl Rng unit :=
  fun w =>
    let '(components, g, tr) :=
      regenerate_from 0 (circuit w) (rng w) (trace w) in
    (Ok tt, {| circuit := components; rng := g; trace := tr |}).

(** The call to [SweepSimulator.simulate] of trial [i]: the caller's keyword
    arguments together with [s_parameters_method]. *)
Definition trial (self : SweepSimulator) (kwargs : Kwargs) (i : nat)
  : Sim Mdl Rng (option ndarray * list R) :=
  let s_parameters_method :=
    if Nat.eqb i 0 then s_parameters else monte_carlo_s_parameters in
  match kw_s_parameters_method kwargs with
  | Some _ =>
      raise (TypeError
        "got multiple values for keyword argument 's_parameters_method'")
  | None =>
      SweepSimulator_simulate self
        {| kw_dB := kw_dB kwargs;
           kw_freq := kw_freq kwargs;
           kw_freqs := kw_freqs kwargs;
           kw_s_parameters_method := Some s_parameters_method |}
  end.

(** The body of [for i in range(runs)], over the indices still to run. *)
Fixpoint trials (self : SweepSimulator) (kwargs : Kwargs) (indices : list nat)
  (results : list (option ndarray * list R))
  : Sim Mdl Rng (list (option ndarray * list R)) :=
  match indices with
  | [] => ret results
  | i :: rest =>
      result <~ trial self kwargs i ;;
      _ <~ regenerate_all ;;
      trials self kwargs rest (results ++ [result])
  end.

Definition MonteCarloSweepSimulator_simulate (self : SweepSimulator)
  (runs : Z) (kwargs : Kwargs)
  : Sim Mdl Rng (list (option ndarray * list R)) :=
  trials self kwargs (range (Z.to_nat runs)) [].

(** *** Vocabulary for the properties of the Monte Carlo loop *)

(** The state change of one pass over the components, without the log. *)
Fixpoint regenerate_round (components : list Mdl) (g : Rng)
  : list Mdl * Rng :=
  match components with
  | [] => ([], g)
  | component :: rest =>
      let (component', g') := regenerate_monte_carlo_parameters component g in
      let (rest', g'') := regenerate_round rest g' in
      (component' :: rest', g'')
  end.

(** The components and generator after [k] passes. *)
Fixpoint after_rounds (k : nat) (components : list Mdl) (g : Rng)
  : list Mdl * Rng :=
  match k with
  | O => (components, g)
  | S k' =>
      let (components', g') := regenerate_round components g in
      after_rounds k' components' g'
  end.

(** The world whose components and generator have gone through [k] passes. *)
Definition regenerated (k : nat) (w : World Mdl Rng) : World Mdl Rng :=
  {| circuit := fst (after_rounds k (circuit w) (rng w));
     rng := snd (after_rounds k (circuit w) (rng w));
     trace := trace w |}.

End Simulators.

Definition connected (self : Simulator) : Prop :=
  _isconnected (pins_input self) = true
  /\ _isconnected (pins_output self) = true.

(** What [simulate] computes once the reduction is at hand. *)
Definition extract (self : Simulator) (dB : bool) (f : option ndarray)
  (sub : Subcircuit) (m : SParametersMethod)
  : Result (option ndarray * list R) :=
  s_params <- getattr sub m f ;;
  input <- PinList_index (sub_pins sub) (_connection (pins_input self)) ;;
  output <- PinList_index (sub_pins sub) (_connection (pins_output self)) ;;
  column <- slice (map3 (power_ratio dB) s_params) input output ;;
  Ok (f, column).

(** The world after some more calls were made. *)
Definition add_events {Mdl Rng} (w : World Mdl Rng) (es : list Event)
  : World Mdl Rng :=
  {| circuit := circuit w; rng := rng w; trace := trace w ++ es |}.

(** The exception [_generate] raises for an unconnected simulator. *)
Definition not_connected_error : PyError :=
  RuntimeError "Simulator must be connected before simulating.".

(** Modelled from the spec: connecting is not among the embedded files;
    "connect(pinA, pinB)" gives each of the simulator's two pins its
    connection. *)
Definition connect (sim : SweepSimulator) (input output : PinId)
  : SweepSimulator :=
  {| base := {| pins_input := {| _connection := Some input |};
                pins_output := {| _connection := Some output |} |};
     mode := mode sim;
     freqs := freqs sim |}.

(** What [SweepSimulator.simulate] does with the pair its base class
    returned. *)
Definition sweep_result (mode : Mode) (r : Result (option ndarray * list R))
  : Result (option ndarray * list R) :=
  match r with
  | Ok (f, column) =>
      match mode with
      | wl =>
          wavelengths <- freq2wl_array f ;; Ok (wavelengths, np.flip column)
      | freq => Ok (f, column)
      end
  | Raise e => Raise e
  end.

(** The keyword arguments [SweepSimulator.simulate] passes on. *)
Definition with_freqs (kwargs : Kwargs) (f : list R) : Kwargs :=
  {| kw_dB := kw_dB kwargs;
     kw_freq := kw_freq kwargs;
     kw_freqs := Some (Some (Array1 f));
     kw_s_parameters_method := kw_s_parameters_method kwargs |}.

(** [n] points from [a] to [b] in equal steps. *)
Definition uniform_grid (a b : R) (n : nat) : list R :=
  map (fun i => a + INR i * ((b - a) / INR (n - 1))) (range n).

(** Strictly increasing. *)
Fixpoint ascending (l : list R) : Prop :=
  match l with
  | a :: t =>
      match t with
      | b :: _ => a < b /\ ascending t
      | [] => True
      end
  | [] => True
  end.

(** The method trial [i] asks for. *)
Definition method_of_trial (i : nat) : SParametersMethod :=
  if Nat.eqb i 0 then s_parameters else monte_carlo_s_parameters.

(** The calls of a trial that succeeds, and of one pass over [n]
    components. *)
Definition trial_events (i : nat) : list Event :=
  [to_subcircuit_called false; method_called (method_of_trial i)].

Definition regenerate_events (n : nat) : list Event :=
  map regenerate_called (range n).

Definition round_events (n i : nat) : list Event :=
  trial_events i ++ regenerate_events n.

(** The matrix methods called, in order. *)
Fixpoint methods_called (events : list Event) : list SParametersMethod :=
  match events with
  | [] => []
  | method_called m :: rest => m :: methods_called rest
  | _ :: rest => methods_called rest
  end.

Definition Event_eq_dec (a b : Event) : {a = b} + {a <> b}.
Proof. repeat decide equality. Defined.


(** ** Vocabulary for the properties of scattering matrices *)

(** The matrix both models produce for one frequency sample. *)
Definition through (t : np.complex) : np.matrix :=
  [[np.czero; t]; [t; np.czero]].

(** [m[i, j]] *)
Definition entry (m : np.matrix) (i j : nat) : np.complex :=
  nth j (nth i m []) np.czero.

(** A two-port matrix that is symmetric with zero diagonal. *)
Definition reciprocal_reflectionless (m : np.matrix) : Prop :=
  length m = 2%nat /\ Forall (fun row => length row = 2%nat) m /\
  entry m 0 1 = entry m 1 0 /\
  entry m 0 0 = np.czero /\ entry m 1 1 = np.czero.

Definition conj (z : np.complex) : np.complex := (np.re z, - np.im z).

Definition csum (zs : list np.complex) : np.complex :=
  fold_left np.cadd zs np.czero.

(** Matrix times column vector. *)
Definition mat_vec (m : np.matrix) (v : list np.complex) : list np.complex :=
  map (fun row => csum (map (fun p => np.cmul (fst p) (snd p)) (combine row v)))
      m.

(** The Gram matrix [M^H M] of a square matrix. *)
Definition gram (m : np.matrix) : np.matrix :=
  let n := length m in
  map (fun i =>
         map (fun j =>
                csum (map (fun k => np.cmul (conj (entry m k i)) (entry m k j))
                          (range n)))
             (range n))
      (range n).

(** [sigma] is a singular value of [m]: it is nonnegative and its square is
    an eigenvalue of [M^H M]. *)
Definition singular_value (m : np.matrix) (sigma : R) : Prop :=
  0 <= sigma /\
  exists v : list np.complex,
    length v = length m /\
    Exists (fun z => z <> np.czero) v /\
    mat_vec (gram m) v = map (np.cmul (sigma * sigma, 0)) v.

(** The magnitude of the two transmission entries of a matrix. *)
Definition transmission_magnitude (m : np.matrix) (a : R) : Prop :=
  np.abs (entry m 0 1) = a /\ np.abs (entry m 1 0) = a.

(** Passivity of one scattering matrix: bounded entries and bounded
    singular values. *)
Definition passive (m : np.matrix) : Prop :=
  (forall i j, np.abs (entry m i j) <= 1) /\
  (forall sigma, singular_value m sigma -> sigma <= 1).

(** ** A test circuit

    One waveguide of the Lumerical model between the simulator's two pins,
    used to run the simulators on concrete inputs. *)

Module Fixture.

Definition coeffs : Lumerical_1550.Coeffs :=
  {| Lumerical_1550.lam0 := 1.55e-6;
     Lumerical_1550.ne := 2.44;
     Lumerical_1550.ng := 4.19;
     Lumerical_1550.nd := 0 |}.

(** A waveguide instance: its length and its current relative length
    deviation. *)
Record Waveguide : Type := {
  wg_length : R;
  wg_delta_length : R
}.

(** The frequency samples of an argument, as the [len(frequency)] of the
    waveguide model admits them: a one-dimensional array has its elements,
    a zero-dimensional array and [None] have no length. *)
Definition samples (f : option ndarray) : Result (list R) :=
  match f with
  | Some (Array1 xs) => Ok xs
  | Some (Scalar0 x) => Raise (TypeError "len() of unsized object")
  | None => Raise (TypeError "object of type 'NoneType' has no len()")
  end.

Definition matrices (L : R) (f : option ndarray) : Result np.stack :=
  xs <- samples f ;;
  r <- Lumerical_1550.get_s_parameters coeffs xs L 5e-7 2.2e-7 0 ;;
  Ok (snd r).

(** The length each matrix method evaluates the waveguide at: the nominal
    one, or the one with the current deviation. *)
Definition effective_length (wg : Waveguide) (m : SParametersMethod) : R :=
  match m with
  | s_parameters => wg_length wg
  | monte_carlo_s_parameters =>
      wg_length wg + wg_length wg * wg_delta_length wg
  end.

(** Modelled from the spec: the reduction engine is not among the embedded
    files; "reducing a circuit with a single component and no connections
    yields that component's own matrix", here over the waveguide's two
    pins. *)
Definition reduce (components : list Waveguide) (permanent : bool)
  : Result Subcircuit :=
  match components with
  | [wg] =>
      Ok {| sub_pins := [0%nat; 1%nat];
            sub_s_parameters :=
              matrices (effective_length wg s_parameters);
            sub_monte_carlo_s_parameters :=
              matrices (effective_length wg monte_carlo_s_parameters) |}
  | _ => Raise (ValueError "the test circuit has one component")
  end.

(** A counter stands for the random generator. *)
Definition redraw (wg : Waveguide) (g : nat) : Waveguide * nat :=
  ({| wg_length := wg_length wg; wg_delta_length := INR g / 100 |}, S g).

#[global] Instance protocol : Protocol Waveguide nat :=
  {| regenerate_monte_carlo_parameters := redraw;
     to_subcircuit := reduce |}.

Definition world : World Waveguide nat :=
  {| circuit := [{| wg_length := 1e-4; wg_delta_length := 0 |}];
     rng := 1%nat;
     trace := [] |}.

(** A simulator with its input on pin 0 and its output on pin 1. *)
Definition simulator : Simulator :=
  {| pins_input := {| _connection := Some 0%nat |};
     pins_output := {| _connection := Some 1%nat |} |}.

Definition unconnected : Simulator :=
  {| pins_input := {| _connection := None |};
     pins_output := {| _connection := Some 1%nat |} |}.

(** A sweep over two frequencies, to be connected to pins 0 and 1. *)
Definition sweep : SweepSimulator :=
  {| base := unconnected; mode := freq; freqs := [1.9e14; 1.95e14] |}.

End Fixture.

(** ** Vocabulary for further properties of the models and simulators *)

(** The propagation constant the Lumerical model computes for one
    frequency. *)
Definition Lumerical_K (coeffs : Lumerical_1550.Coeffs) (f : R) : R :=
  let w := f * 2 * PI in
  let w0 := (2 * PI * c0) / Lumerical_1550.lam0 coeffs in
  2 * PI * Lumerical_1550.ne coeffs / Lumerical_1550.lam0 coeffs
  + (Lumerical_1550.ng coeffs / c0) * (w - w0)
  - (Lumerical_1550.nd coeffs * (Lumerical_1550.lam0 coeffs) ^ 2
     / (4 * PI * c0)) * ((w - w0) ^ 2).

(** The effective index and the propagation constant the ANN model
    computes for one frequency. *)
Definition ANN_neff (coeffs : list R) (wavelength width thickness : R) : R :=
  np.dot (ANN_WG.poly_row [wavelength; width; thickness; 90]) coeffs.

Definition ANN_K (coeffs : list R) (width thickness f : R) : R :=
  2 * PI * (ANN_neff coeffs (c0 / f) width thickness / (c0 / f)).

(** The product of the lengths of some arrays. *)
Definition lengths_product (arrays : list (list R)) : nat :=
  fold_right (fun a n => (length a * n)%nat) 1%nat arrays.

(** A tuple of column indices in non-decreasing order. *)
Fixpoint nondecreasing (c : list nat) : bool :=
  match c with
  | a :: t =>
      match t with
      | b :: _ => Nat.leb a b && nondecreasing t
      | [] => true
      end
  | [] => true
  end.

(** The first component of every pair a sweep returns: the zero-dimensional
    [freq] when one is passed, the grid otherwise, converted in wavelength
    mode. *)
Definition sweep_axis (self : SweepSimulator) (kwargs : Kwargs)
  : option ndarray :=
  let f := if truthy (default 0 (kw_freq kwargs))
           then Scalar0 (default 0 (kw_freq kwargs))
           else Array1 (freqs self) in
  match mode self with
  | wl => Some (ndarray_map freq2wl f)
  | freq => Some f
  end.

(** A sweep simulator with another grid. *)
Definition with_grid (self : SweepSimulator) (grid : list R)
  : SweepSimulator :=
  {| base := base self; mode := mode self; freqs := grid |}.

(** The transmission entries of [s12] are, sample by sample, the products
    of those of [s1] and [s2]. *)
Definition cascade_of (s1 s2 s12 : np.stack) : Prop :=
  forall x,
    entry (nth x s12 []) 0 1
    = np.cmul (entry (nth x s1 []) 0 1) (entry (nth x s2 []) 0 1)
    /\ entry (nth x s12 []) 1 0
       = np.cmul (entry (nth x s1 []) 1 0) (entry (nth x s2 []) 1 0).

(** The loss in decibels of the transmission entries of a matrix,
    [20 log10 |S21|]. *)
Definition loss_dB (m : np.matrix) (a : R) : Prop :=
  20 * np.log10 (np.abs (entry m 0 1)) = a
  /\ 20 * np.log10 (np.abs (entry m 1 0)) = a.

(** * The embedding on small inputs *)

(** The order of [itertools.combinations_with_replacement], as its
    documentation shows it for a pool of three and [r = 2]. *)
Example comb_w_r_pairs :
  comb_w_r 2 [0; 1; 2]%nat
  = [[0; 0]; [0; 1]; [0; 2]; [1; 1]; [1; 2]; [2; 2]]%nat.
Proof. reflexivity. Qed.

Example combos_head :
  firstn 6 ANN_WG.combos = [[]; [0]; [1]; [2]; [3]; [0; 0]]%nat.
Proof. reflexivity. Qed.

Example cartesian_product_rows (a b c d : R) :
  ANN_WG.cartesian_product [[a; b]; [c]; [d]] = [[a; c; d]; [b; c; d]].
Proof. reflexivity. Qed.

Example poly_row_head (x y z t : R) :
  firstn 3 (ANN_WG.poly_row [x; y; z; t]) = [1; 1 * x; 1 * y].
Proof. reflexivity. Qed.

Example linspace_three : np.linspace 0 1 3 = Ok [0; 1 / 2; 1].
Proof.
  unfold np.linspace, range. simpl.
  f_equal. f_equal; [lra|]. f_equal; [lra|]. f_equal. lra.
Qed.

Example linspace_one (a b : R) : np.linspace a b 1 = Ok [a].
Proof. reflexivity. Qed.

Example linspace_negative (a b : R) :
  np.linspace a b (-1)
  = Raise (ValueError "Number of samples must be non-negative.").
Proof. reflexivity. Qed.

Example index_second : PinList_index [5; 7; 7]%nat (Some 7%nat) = Ok 1%nat.
Proof. reflexivity. Qed.

Example index_absent :
  PinList_index [5; 7]%nat (Some 3%nat)
  = Raise (ValueError "pin is not in list").
Proof. reflexivity. Qed.

Example setitem_out_of_bounds (v : np.complex) :
  np.setitem (np.zeros22 2) 2 0 1 v
  = Raise (IndexError "index out of bounds").
Proof. reflexivity. Qed.

Example methods_of_two_rounds :
  methods_called (round_events 2 0 ++ round_events 2 1)
  = [s_parameters; monte_carlo_s_parameters].
Proof. reflexivity. Qed.

(** * Properties of the waveguide models *)

Lemma rbind_ok_inv {A B} (r : Result A) (k : A -> Result B) (b : B) :
  rbind r k = Ok b -> exists a, r = Ok a /\ k a = Ok b.
Proof. destruct r as [a|e]; simpl; intros H; [eauto | discriminate]. Qed.

Lemma for_each_app {S} (xs ys : list nat) (body : nat -> S -> Result S) s :
  for_each (xs ++ ys) body s = (s' <- for_each xs body s ;; for_each ys body s').
Proof.
  revert s; induction xs as [|x xs IH]; intros s; simpl; [reflexivity|].
  destruct (body x s); simpl; auto.
Qed.

Lemma range_S n : range (S n) = range n ++ [n].
Proof. unfold range. rewrite seq_S. reflexivity. Qed.

Lemma replace_middle {A} (l1 : list A) (x v : A) (l2 : list A) :
  np.replace (l1 ++ x :: l2) (length l1) v = l1 ++ v :: l2.
Proof. induction l1 as [|h t IH]; simpl; [reflexivity | now rewrite IH]. Qed.

Lemma getitem_middle {A} (l1 : list A) (x : A) (l2 : list A) :
  np.getitem (l1 ++ x :: l2) (length l1) = Ok x.
Proof.
  unfold np.getitem. rewrite nth_error_app2 by lia.
  rewrite Nat.sub_diag. reflexivity.
Qed.

Lemma getitem_nth {A} (l : list A) (x : nat) (d : A) :
  (x < length l)%nat -> np.getitem l x = Ok (nth x l d).
Proof.
  intros H. unfold np.getitem.
  rewrite (nth_error_nth' l d H). reflexivity.
Qed.

Lemma build_entry_next (K : list R) (L : R) (done : np.stack) (m : nat) :
  (length done < length K)%nat ->
  build_entry K L (length done) (done ++ np.zeros22 (S m))
  = Ok ((done ++ [through (transmission (nth (length done) K 0) L)])
          ++ np.zeros22 m).
Proof.
  intros HK. unfold build_entry.
  rewrite (getitem_nth K _ 0 HK). simpl rbind.
  unfold np.zeros22. simpl repeat.
  unfold np.setitem.
  rewrite getitem_middle. simpl rbind.
  rewrite replace_middle.
  rewrite getitem_middle. simpl rbind.
  rewrite replace_middle.
  rewrite <- app_assoc. reflexivity.
Qed.

Lemma build_loop (K : list R) (L : R) (n m : nat) :
  (n <= m)%nat -> (n <= length K)%nat ->
  for_each (range n) (build_entry K L) (np.zeros22 m)
  = Ok (map (fun x => through (transmission (nth x K 0) L)) (range n)
          ++ np.zeros22 (m - n)).
Proof.
  induction n as [|n IH]; intros Hm HK.
  - simpl. rewrite Nat.sub_0_r. reflexivity.
  - rewrite range_S, for_each_app, IH by lia. simpl rbind.
    replace (m - n)%nat with (S (m - S n)) by lia.
    set (done := map _ (range n)).
    assert (Hlen : length done = n)
      by (unfold done, range; now rewrite length_map, length_seq).
    simpl for_each.
    rewrite <- Hlen at 1.
    rewrite build_entry_next by (rewrite Hlen; lia).
    simpl rbind. rewrite Hlen, map_app. reflexivity.
Qed.

Lemma abs_exp (z : np.complex) : np.abs (np.exp z) = Rtrigo_def.exp (np.re z).
Proof.
  unfold np.abs, np.exp, np.re, np.im; simpl.
  set (e := Rtrigo_def.exp (fst z)).
  replace (e * cos (snd z) * (e * cos (snd z))
           + e * sin (snd z) * (e * sin (snd z)))
    with (Rsqr e * (Rsqr (sin (snd z)) + Rsqr (cos (snd z))))
    by (unfold Rsqr; ring).
  rewrite sin2_cos2, Rmult_1_r.
  apply sqrt_Rsqr. unfold e. left. apply exp_pos.
Qed.

Lemma alpha_value : alpha = 35 * ln 10.
Proof.
  unfold alpha, TE_loss, np.log10. rewrite ln_exp.
  assert (H : ln 10 <> 0) by (apply ln_neq_0; lra).
  field. exact H.
Qed.

Lemma alpha_pos : 0 < alpha.
Proof.
  rewrite alpha_value.
  assert (H : 0 < ln 10) by (rewrite <- ln_1; apply ln_increasing; lra).
  lra.
Qed.

Lemma abs_transmission (k L : R) :
  np.abs (transmission k L) = Rtrigo_def.exp (- alpha * L).
Proof. unfold transmission. rewrite abs_exp. reflexivity. Qed.

Lemma abs_transmission_le_1 (k L : R) :
  0 <= L -> np.abs (transmission k L) <= 1.
Proof.
  intros HL. rewrite abs_transmission, <- exp_0.
  pose proof alpha_pos as Ha.
  destruct (Req_dec (- alpha * L) 0) as [E|N].
  - rewrite E. lra.
  - left. apply exp_increasing. nra.
Qed.

Lemma abs_czero : np.abs np.czero = 0.
Proof.
  unfold np.abs, np.czero, np.re, np.im; simpl.
  rewrite Rmult_0_l, Rplus_0_l. apply sqrt_0.
Qed.

Lemma through_reciprocal (t : np.complex) :
  reciprocal_reflectionless (through t).
Proof.
  unfold reciprocal_reflectionless, through, entry; simpl.
  repeat split; auto.
Qed.

Lemma entry_through_abs (t : np.complex) (i j : nat) :
  np.abs t <= 1 -> np.abs (entry (through t) i j) <= 1.
Proof.
  intros Ht. unfold entry, through.
  assert (Hz : np.abs np.czero <= 1) by (rewrite abs_czero; lra).
  destruct i as [|[|i]]; simpl.
  - destruct j as [|[|j]]; simpl; auto. destruct j; auto.
  - destruct j as [|[|j]]; simpl; auto. destruct j; auto.
  - destruct i; simpl; destruct j; auto.
Qed.

Lemma gram_through_vec (t a b : np.complex) :
  mat_vec (gram (through t)) [a; b]
  = [np.cmul (np.re t * np.re t + np.im t * np.im t, 0) a;
     np.cmul (np.re t * np.re t + np.im t * np.im t, 0) b].
Proof.
  destruct t as [tr ti], a as [ar ai], b as [br bi].
  unfold mat_vec, gram, through, csum, entry, conj, np.cmul, np.cadd, np.czero,
    np.re, np.im, range; simpl.
  f_equal; [|f_equal]; apply injective_projections; simpl; ring.
Qed.

Lemma singular_value_through (t : np.complex) (sigma : R) :
  singular_value (through t) sigma -> sigma = np.abs t.
Proof.
  intros [Hpos (v & Hlen & Hnz & Heq)].
  destruct v as [|a [|b [|c v]]]; try discriminate Hlen.
  rewrite gram_through_vec in Heq. simpl in Heq.
  set (n := np.re t * np.re t + np.im t * np.im t) in *.
  assert (Hn : 0 <= n) by (unfold n; nra).
  assert (Hsq : sigma * sigma = n).
  { destruct a as [ar ai], b as [br bi].
    unfold np.cmul, np.re, np.im in Heq; simpl in Heq.
    assert (Ha1 : n * ar - 0 * ai = sigma * sigma * ar - 0 * ai)
      by congruence.
    assert (Ha2 : n * ai + 0 * ar = sigma * sigma * ai + 0 * ar)
      by congruence.
    assert (Hb1 : n * br - 0 * bi = sigma * sigma * br - 0 * bi)
      by congruence.
    assert (Hb2 : n * bi + 0 * br = sigma * sigma * bi + 0 * br)
      by congruence.
    clear Heq.
    assert (Hcases : ar <> 0 \/ ai <> 0 \/ br <> 0 \/ bi <> 0).
    { apply Exists_cons in Hnz as [Hz|Hnz].
      - destruct (Req_dec ar 0) as [E1|N1]; [|now left].
        destruct (Req_dec ai 0) as [E2|N2]; [|now right; left].
        subst. exfalso. apply Hz. reflexivity.
      - apply Exists_cons in Hnz as [Hz|Hnz]; [|inversion Hnz].
        destruct (Req_dec br 0) as [E1|N1]; [|now right; right; left].
        destruct (Req_dec bi 0) as [E2|N2]; [|now right; right; right].
        subst. exfalso. apply Hz. reflexivity. }
    destruct Hcases as [H|[H|[H|H]]].
    - apply (Rmult_eq_reg_r ar); [lra | exact H].
    - apply (Rmult_eq_reg_r ai); [lra | exact H].
    - apply (Rmult_eq_reg_r br); [lra | exact H].
    - apply (Rmult_eq_reg_r bi); [lra | exact H]. }
  unfold np.abs. fold n. rewrite <- Hsq.
  symmetry. apply sqrt_square. exact Hpos.
Qed.

(** The magnitude of the transmission is a singular value, so the bound
    on singular values is about something. *)
Lemma abs_is_singular_value (t : np.complex) :
  singular_value (through t) (np.abs t).
Proof.
  split.
  - unfold np.abs. apply sqrt_pos.
  - exists [(1, 0); (0, 0)]. split; [reflexivity|]. split.
    + apply Exists_cons_hd. intros E. injection E as E. lra.
    + rewrite gram_through_vec. unfold np.abs.
      rewrite sqrt_sqrt
        by (destruct t as [tr ti]; unfold np.re, np.im; simpl; nra).
      reflexivity.
Qed.

Lemma through_passive (t : np.complex) :
  np.abs t <= 1 -> passive (through t).
Proof.
  intros Ht. split.
  - intros i j. now apply entry_through_abs.
  - intros sigma Hs. rewrite (singular_value_through t sigma Hs). exact Ht.
Qed.

Lemma map_nth_range {A B} (g : A -> B) (l : list A) (d : A) :
  map (fun x => g (nth x l d)) (range (length l)) = map g l.
Proof.
  unfold range. induction l as [|h t IH]; simpl; [reflexivity|].
  f_equal. rewrite <- seq_shift, map_map. exact IH.
Qed.

(** What a completed run of the shared loop leaves in [mat]. *)
Lemma build_all (K : list R) (L : R) :
  for_each (range (length K)) (build_entry K L) (np.zeros22 (length K))
  = Ok (map (fun k => through (transmission k L)) K).
Proof.
  rewrite build_loop by lia.
  rewrite Nat.sub_diag. simpl np.zeros22. rewrite app_nil_r.
  now rewrite (map_nth_range (fun k => through (transmission k L))).
Qed.

Lemma combos_length : length ANN_WG.combos = 70%nat.
Proof. reflexivity. Qed.

Lemma cartesian_product_scalars (wl : list R) (w t a : R) :
  ANN_WG.cartesian_product [wl; [w]; [t]; [a]]
  = map (fun x => [x; w; t; a]) wl.
Proof.
  simpl. induction wl as [|x wl IH]; simpl; [reflexivity | now rewrite IH].
Qed.

Lemma straightWaveguide_length (coeffs wl : list R) (w t a : R) (neff : list R) :
  ANN_WG.straightWaveguide coeffs wl w t a = Ok neff ->
  length neff = length wl.
Proof.
  unfold ANN_WG.straightWaveguide, np.matmul.
  destruct (Nat.eqb (length wl) 1); [discriminate|].
  destruct (Nat.eqb _ _); [|discriminate].
  intros H; injection H as <-.
  change (flat_map (fun x : R => [[x; w; t; a]]) wl)
    with (ANN_WG.cartesian_product [wl; [w]; [t]; [a]]).
  rewrite cartesian_product_scalars. now rewrite !length_map.
Qed.

Lemma straightWaveguide_total (coeffs wl : list R) (w t a : R) :
  length coeffs = 70%nat -> length wl <> 1%nat ->
  exists neff, ANN_WG.straightWaveguide coeffs wl w t a = Ok neff.
Proof.
  intros Hc Hw. unfold ANN_WG.straightWaveguide, np.matmul.
  apply Nat.eqb_neq in Hw. rewrite Hw, combos_length, Hc. simpl.
  eauto.
Qed.

(** The ANN model, when it returns, returns the frequencies it was given
    and one [through] matrix per frequency, built for the perturbed
    length. *)
Lemma ANN_WG_returns (coeffs frequency : list R) (L w t d : R) f s :
  ANN_WG.get_s_parameters coeffs frequency L w t d = Ok (f, s) ->
  f = frequency /\
  exists K, length K = length frequency /\
            s = map (fun k => through (transmission k (L + L * d))) K.
Proof.
  unfold ANN_WG.get_s_parameters. intros H.
  apply rbind_ok_inv in H as (neff & Hneff & H).
  apply straightWaveguide_length in Hneff. rewrite length_map in Hneff.
  set (K := map _ (combine neff _)) in H.
  assert (HK : length K = length frequency).
  { unfold K. rewrite length_map, length_combine, length_map. lia. }
  rewrite Hneff, <- HK, build_all in H. simpl in H.
  injection H as <- <-. split; [reflexivity|]. exists K. auto.
Qed.

Lemma ANN_WG_total (coeffs frequency : list R) (L w t d : R) :
  length coeffs = 70%nat -> length frequency <> 1%nat ->
  exists s, ANN_WG.get_s_parameters coeffs frequency L w t d
            = Ok (frequency, s).
Proof.
  intros Hc Hf.
  destruct (straightWaveguide_total coeffs (map (fun f => c0 / f) frequency)
              w t 90 Hc) as [neff Hneff].
  { now rewrite length_map. }
  unfold ANN_WG.get_s_parameters. rewrite Hneff. simpl rbind.
  apply straightWaveguide_length in Hneff. rewrite length_map in Hneff.
  set (K := map _ (combine neff _)).
  assert (HK : length K = length frequency).
  { unfold K. rewrite length_map, length_combine, length_map. lia. }
  rewrite Hneff, <- HK, build_all. simpl. eauto.
Qed.

(** On a frequency array of one element the ANN model raises: the
    squeezed wavelength array has no length. *)
Lemma ANN_WG_single_frequency (coeffs : list R) (f L w t d : R) :
  ANN_WG.get_s_parameters coeffs [f] L w t d
  = Raise (TypeError "len() of unsized object").
Proof. reflexivity. Qed.

(** The Lumerical model always returns, with one [through] matrix per
    frequency, built for the nominal length. *)
Lemma Lumerical_1550_returns (coeffs : Lumerical_1550.Coeffs)
  (frequency : list R) (L w t d : R) :
  exists K, length K = length frequency /\
    Lumerical_1550.get_s_parameters coeffs frequency L w t d
    = Ok (frequency, map (fun k => through (transmission k L)) K).
Proof.
  unfold Lumerical_1550.get_s_parameters.
  set (K := map _ (map _ frequency)).
  assert (HK : length K = length frequency)
    by (unfold K; now rewrite !length_map).
  exists K. split; [exact HK|].
  rewrite <- HK, build_all. reflexivity.
Qed.

Lemma Forall_map_through (P : np.matrix -> Prop) (g : R -> np.complex)
  (K : list R) :
  (forall k, P (through (g k))) -> Forall P (map (fun k => through (g k)) K).
Proof. intros H. apply Forall_forall. intros m Hm.
  apply in_map_iff in Hm as (k & <- & _). apply H.
Qed.

(** C9.  At every frequency sample, the matrix returned by either waveguide
    model is 2x2, has equal (0,1) and (1,0) entries and zero (0,0) and (1,1)
    entries.  The Lumerical model returns for every frequency array; the ANN
    model returns for every frequency array whose length is not 1, given the
    70 coefficients its polynomial needs. *)
Theorem waveguide_models_reciprocal_reflectionless
  (ann_coeffs : list R) (lum_coeffs : Lumerical_1550.Coeffs)
  (frequency : list R) (L width thickness delta_length : R) :
  (forall f s,
      ANN_WG.get_s_parameters ann_coeffs frequency L width thickness
        delta_length = Ok (f, s) ->
      f = frequency /\ length s = length frequency /\
      Forall reciprocal_reflectionless s)
  /\ (exists s,
        Lumerical_1550.get_s_parameters lum_coeffs frequency L width thickness
          delta_length = Ok (frequency, s) /\
        length s = length frequency /\
        Forall reciprocal_reflectionless s)
  /\ (length ann_coeffs = 70%nat -> length frequency <> 1%nat ->
      exists s,
        ANN_WG.get_s_parameters ann_coeffs frequency L width thickness
          delta_length = Ok (frequency, s)).
Proof.
  split; [|split].
  - intros f s H. apply ANN_WG_returns in H as (-> & K & HK & ->).
    split; [reflexivity|]. split; [now rewrite length_map|].
    apply Forall_map_through. intros k. apply through_reciprocal.
  - destruct (Lumerical_1550_returns lum_coeffs frequency L width thickness
                delta_length) as (K & HK & H).
    eexists. split; [exact H|]. split; [now rewrite length_map|].
    apply Forall_map_through. intros k. apply through_reciprocal.
  - apply ANN_WG_total.
Qed.

(** C8.  With the loss constant [alpha = 700/(20 log10 e) > 0], for positive
    frequencies and a nonnegative length, every matrix either waveguide model
    returns is passive: each entry has magnitude at most 1, the transmission
    entries have magnitude [exp(-alpha * length)] (for the ANN model the
    length is the perturbed one, [length + length*delta_length], and
    [delta_length >= -1] is required), and every singular value is at most
    1; that magnitude is itself a singular value. *)
Theorem waveguide_models_passive
  (ann_coeffs : list R) (lum_coeffs : Lumerical_1550.Coeffs)
  (frequency : list R) (L width thickness delta_length : R) :
  Forall (fun f => 0 < f) frequency ->
  0 <= L ->
  0 < alpha
  /\ (-1 <= delta_length ->
      forall f s,
        ANN_WG.get_s_parameters ann_coeffs frequency L width thickness
          delta_length = Ok (f, s) ->
        Forall passive s /\
        Forall (fun m =>
                  transmission_magnitude m
                    (Rtrigo_def.exp (- alpha * (L + L * delta_length)))
                  /\ singular_value m
                       (Rtrigo_def.exp (- alpha * (L + L * delta_length))))
               s)
  /\ (exists s,
        Lumerical_1550.get_s_parameters lum_coeffs frequency L width thickness
          delta_length = Ok (frequency, s) /\
        Forall passive s /\
        Forall (fun m =>
                  transmission_magnitude m (Rtrigo_def.exp (- alpha * L))
                  /\ singular_value m (Rtrigo_def.exp (- alpha * L)))
               s).
Proof.
  intros _ HL. split; [exact alpha_pos|]. split.
  - intros Hd f s H. apply ANN_WG_returns in H as (-> & K & HK & ->).
    assert (HL' : 0 <= L + L * delta_length) by nra.
    split; apply Forall_map_through; intros k.
    + apply through_passive. now apply abs_transmission_le_1.
    + split.
      * split; unfold entry, through; simpl; apply abs_transmission.
      * rewrite <- (abs_transmission k). apply abs_is_singular_value.
  - destruct (Lumerical_1550_returns lum_coeffs frequency L width thickness
                delta_length) as (K & HK & H).
    eexists. split; [exact H|].
    split; apply Forall_map_through; intros k.
    + apply through_passive. now apply abs_transmission_le_1.
    + split.
      * split; unfold entry, through; simpl; apply abs_transmission.
      * rewrite <- (abs_transmission k). apply abs_is_singular_value.
Qed.

(** * Properties of the simulators *)

Section SimulatorFacts.

Context {Mdl Rng : Type} `{Protocol Mdl Rng}.

Lemma add_events_nil (w : World Mdl Rng) : add_events w [] = w.
Proof. destruct w. unfold add_events; simpl. now rewrite app_nil_r. Qed.

Lemma add_events_app (w : World Mdl Rng) (a b : list Event) :
  add_events (add_events w a) b = add_events w (a ++ b).
Proof. unfold add_events; simpl. now rewrite app_assoc. Qed.

Lemma generate_unconnected (self : Simulator) f m (w : World Mdl Rng) :
  _isconnected (pins_input self) = false
  \/ _isconnected (pins_output self) = false ->
  Simulator__generate self f m w = (Raise not_connected_error, w).
Proof.
  intros [E|E]; unfold Simulator__generate; rewrite E; simpl.
  - reflexivity.
  - rewrite orb_true_r. reflexivity.
Qed.

Lemma generate_connected (self : Simulator) f m (w : World Mdl Rng) :
  _isconnected (pins_input self) = true ->
  _isconnected (pins_output self) = true ->
  Simulator__generate self f m w
  = match to_subcircuit (circuit w) false with
    | Raise e => (Raise e, add_events w [to_subcircuit_called false])
    | Ok sub =>
        (match getattr sub m f with
         | Ok s_params => Ok (s_params, sub_pins sub)
         | Raise e => Raise e
         end,
         add_events w [to_subcircuit_called false; method_called m])
    end.
Proof.
  intros E1 E2. unfold Simulator__generate. rewrite E1, E2. simpl.
  unfold bind, call_to_subcircuit, call_method, ret, add_events; simpl.
  destruct (to_subcircuit (circuit w) false) as [sub|e]; [|reflexivity].
  simpl. rewrite <- app_assoc. simpl.
  destruct (getattr sub m f); reflexivity.
Qed.

Lemma slice_map3 {A} (g : A -> R) (d : A) (a : list (list (list A)))
  (i j : nat) (column : list R) :
  slice (map3 g a) i j = Ok column ->
  column = map (fun m => g (nth j (nth i m []) d)) a.
Proof.
  revert column. induction a as [|m a IH]; intros column; simpl.
  - intros E; injection E as <-. reflexivity.
  - unfold np.getitem.
    rewrite nth_error_map.
    destruct (nth_error m i) as [row|] eqn:Em; simpl; [|discriminate].
    rewrite nth_error_map.
    destruct (nth_error row j) as [v|] eqn:Ev; simpl; [|discriminate].
    fold (map3 g a).
    destruct (slice (map3 g a) i j) as [vs|e]; simpl; [|discriminate].
    intros E; injection E as <-.
    rewrite (IH vs eq_refl).
    apply (nth_error_nth _ _ []) in Em. rewrite Em.
    apply (nth_error_nth _ _ d) in Ev. rewrite Ev. reflexivity.
Qed.

Lemma map3_map3 {A B C} (f : A -> B) (g : B -> C) (a : list (list (list A))) :
  map3 g (map3 f a) = map3 (fun x => g (f x)) a.
Proof.
  unfold map3. rewrite map_map. apply map_ext. intros m.
  rewrite map_map. apply map_ext. intros row. apply map_map.
Qed.

Lemma connected_dec (self : Simulator) :
  connected self
  \/ (_isconnected (pins_input self) = false
      \/ _isconnected (pins_output self) = false).
Proof.
  unfold connected.
  destruct (_isconnected (pins_input self)),
    (_isconnected (pins_output self)); auto.
Qed.

Lemma simulate_unconnected (self : Simulator) dB fr fs m (w : World Mdl Rng) :
  _isconnected (pins_input self) = false
  \/ _isconnected (pins_output self) = false ->
  Simulator_simulate self dB fr fs m w = (Raise not_connected_error, w).
Proof.
  intros E. unfold Simulator_simulate, bind.
  rewrite (generate_unconnected _ _ _ _ E). reflexivity.
Qed.

Lemma simulate_connected (self : Simulator) dB fr fs m (w : World Mdl Rng) :
  connected self ->
  Simulator_simulate self dB fr fs m w
  = match to_subcircuit (circuit w) false with
    | Raise e => (Raise e, add_events w [to_subcircuit_called false])
    | Ok sub =>
        (extract self dB (if truthy fr then Some (Scalar0 fr) else fs) sub m,
         add_events w [to_subcircuit_called false; method_called m])
    end.
Proof.
  intros [E1 E2]. unfold Simulator_simulate, bind.
  rewrite (generate_connected _ _ _ _ E1 E2).
  destruct (to_subcircuit (circuit w) false) as [sub|e]; [|reflexivity].
  unfold extract.
  destruct (getattr sub m _) as [s_params|e]; [|reflexivity].
  simpl fst; simpl snd. unfold lift, ret. simpl rbind.
  assert (E : (if dB
               then map3 np.log10 (map3 (fun z => np.abs z ^ 2) s_params)
               else map3 (fun z => np.abs z ^ 2) s_params)
              = map3 (power_ratio dB) s_params).
  { destruct dB; [rewrite map3_map3|]; reflexivity. }
  rewrite E.
  destruct (PinList_index _ (_connection (pins_input self))); [|reflexivity].
  destruct (PinList_index _ (_connection (pins_output self))); [|reflexivity].
  simpl rbind.
  destruct (slice _ _ _); reflexivity.
Qed.

Lemma truthy_nonzero (x : R) : x <> 0 -> truthy x = true.
Proof. intros N. unfold truthy. destruct (Req_dec_T x 0); [contradiction | reflexivity]. Qed.

Lemma truthy_zero : truthy 0 = false.
Proof. unfold truthy. destruct (Req_dec_T 0 0); [reflexivity | contradiction]. Qed.

(** C5.  [_generate] on a simulator whose input pin or output pin is not
    connected raises the "must be connected" error (the code's
    [RuntimeError], the spec's UnconnectedError) and leaves the world as it
    was: no reduction is asked for.  On a connected simulator it asks for a
    non-permanent reduction, and when the reduction and its matrix method
    return, it returns the matrix stack with the reduced pin ordering. *)
Theorem generate_requires_connection (self : Simulator) (f : option ndarray)
  (m : SParametersMethod) (w : World Mdl Rng) :
  (_isconnected (pins_input self) = false
   \/ _isconnected (pins_output self) = false ->
   Simulator__generate self f m w = (Raise not_connected_error, w))
  /\ (connected self ->
      (exists r events,
          Simulator__generate self f m w
          = (r, add_events w (to_subcircuit_called false :: events)))
      /\ (forall sub s_params,
             to_subcircuit (circuit w) false = Ok sub ->
             getattr sub m f = Ok s_params ->
             Simulator__generate self f m w
             = (Ok (s_params, sub_pins sub),
                add_events w [to_subcircuit_called false; method_called m]))).
Proof.
  split.
  - apply generate_unconnected.
  - intros [E1 E2]. rewrite (generate_connected _ _ _ _ E1 E2). split.
    + destruct (to_subcircuit (circuit w) false); eauto.
    + intros sub s_params -> ->. reflexivity.
Qed.

(** C4.  When [simulate] returns, the returned frequencies are the frequency
    argument the reduction was evaluated on, and the returned ratio for each
    frequency sample is the squared magnitude of the entry of that sample's
    reduced matrix at (index of the input pin's connection, index of the
    output pin's connection); with [dB] it is the base-10 logarithm of that
    squared magnitude, not multiplied by 10. *)
Theorem simulate_returns_power_ratios (self : Simulator) (dB : bool) (fr : R)
  (fs : option ndarray) (m : SParametersMethod) (w w' : World Mdl Rng)
  (f : option ndarray) (column : list R) :
  Simulator_simulate self dB fr fs m w = (Ok (f, column), w') ->
  exists sub s_params input output,
    to_subcircuit (circuit w) false = Ok sub
    /\ getattr sub m f = Ok s_params
    /\ PinList_index (sub_pins sub) (_connection (pins_input self)) = Ok input
    /\ PinList_index (sub_pins sub) (_connection (pins_output self))
       = Ok output
    /\ column
       = map (fun mat =>
                if dB
                then np.log10 (np.abs (entry mat input output) ^ 2)
                else np.abs (entry mat input output) ^ 2) s_params.
Proof.
  intros Hrun.
  destruct (connected_dec self) as [Hc|Hu].
  2:{ rewrite (simulate_unconnected _ _ _ _ _ _ Hu) in Hrun. discriminate. }
  rewrite (simulate_connected _ _ _ _ _ _ Hc) in Hrun.
  destruct (to_subcircuit (circuit w) false) as [sub|e]; [|discriminate].
  injection Hrun as Hex _. unfold extract in Hex.
  apply rbind_ok_inv in Hex as (s_params & Hs & Hex).
  apply rbind_ok_inv in Hex as (input & Hi & Hex).
  apply rbind_ok_inv in Hex as (output & Ho & Hex).
  apply rbind_ok_inv in Hex as (col & Hcol & Hex).
  injection Hex as <- <-.
  exists sub, s_params, input, output. repeat split; auto.
  apply (slice_map3 _ np.czero) in Hcol. rewrite Hcol.
  apply map_ext. intros mat. unfold power_ratio, entry. reflexivity.
Qed.

(** C2, as the code has it.  [simulate] does not validate its frequency
    arguments.  A nonzero [freq] replaces [freqs] by the zero-dimensional
    array [np.array(freq)], so supplying both is the same call as supplying
    [freq] alone; with [freq] zero, [freqs] is used as given, [None]
    included.  The outcome is then the "must be connected" error, or whatever
    the reduction and the extraction of the ratios give on that frequency
    argument. *)
Theorem simulate_frequency_arguments (self : Simulator) (dB : bool) (fr : R)
  (fs : option ndarray) (m : SParametersMethod) (w : World Mdl Rng) :
  let f := if truthy fr then Some (Scalar0 fr) else fs in
  (fr <> 0 ->
   f = Some (Scalar0 fr)
   /\ Simulator_simulate self dB fr fs m w
      = Simulator_simulate self dB fr None m w)
  /\ (fr = 0 -> f = fs)
  /\ Simulator_simulate self dB fr fs m w
     = if _isconnected (pins_input self) && _isconnected (pins_output self)
       then match to_subcircuit (circuit w) false with
            | Raise e => (Raise e, add_events w [to_subcircuit_called false])
            | Ok sub =>
                (extract self dB f sub m,
                 add_events w
                   [to_subcircuit_called false; method_called m])
            end
       else (Raise not_connected_error, w).
Proof.
  intros f. split; [|split].
  - intros N. unfold f. rewrite (truthy_nonzero fr N). split; [reflexivity|].
    unfold Simulator_simulate. rewrite (truthy_nonzero fr N). reflexivity.
  - intros ->. unfold f. now rewrite truthy_zero.
  - destruct (connected_dec self) as [Hc|Hu].
    + rewrite (simulate_connected _ _ _ _ _ _ Hc).
      destruct Hc as [-> ->]. reflexivity.
    + rewrite (simulate_unconnected _ _ _ _ _ _ Hu).
      destruct Hu as [-> | ->]; [|rewrite andb_false_r]; reflexivity.
Qed.

End SimulatorFacts.

(** * Properties of the sweep *)

Lemma linspace_uniform (a b : R) (num : Z) :
  (0 <= num)%Z ->
  np.linspace a b num = Ok (uniform_grid a b (Z.to_nat num)).
Proof.
  intros Hn. unfold np.linspace, uniform_grid.
  destruct (Z.ltb_spec num 0) as [Hlt|_]; [lia|].
  f_equal. apply map_ext_in. intros i Hi.
  destruct (Z.to_nat num) as [|[|n]] eqn:E; try reflexivity.
  unfold range in Hi. apply in_seq in Hi.
  assert (i = 0%nat) as -> by lia. simpl. lra.
Qed.

Lemma uniform_grid_length (a b : R) (n : nat) :
  length (uniform_grid a b n) = n.
Proof. unfold uniform_grid, range. now rewrite length_map, length_seq. Qed.

Lemma call_wl2freq_nonzero (x : R) :
  x <> 0 -> call_wl2freq x = Ok (SPEED_OF_LIGHT / x).
Proof.
  intros Hx. unfold call_wl2freq.
  destruct (Req_dec_T x 0); [contradiction | reflexivity].
Qed.

Lemma call_wl2freq_zero :
  call_wl2freq 0 = Raise (ZeroDivisionError "float division by zero").
Proof.
  unfold call_wl2freq. destruct (Req_dec_T 0 0); [reflexivity | contradiction].
Qed.

Lemma init_outcome (start stop : R) (num : Z) :
  (0 <= num)%Z ->
  (start < 1 -> start <> 0 /\ stop <> 0) ->
  exists sim,
    SweepSimulator___init__ start stop num = Ok sim
    /\ _isconnected (pins_input (base sim)) = false
    /\ _isconnected (pins_output (base sim)) = false
    /\ (start < 1 ->
        mode sim = wl
        /\ freqs sim = uniform_grid (SPEED_OF_LIGHT / start)
                         (SPEED_OF_LIGHT / stop) (Z.to_nat num))
    /\ (1 <= start ->
        mode sim = freq
        /\ freqs sim = uniform_grid start stop (Z.to_nat num)).
Proof.
  intros Hn Hnz. unfold SweepSimulator___init__.
  destruct (Rlt_dec start 1) as [Hlt|Hge].
  - destruct (Hnz Hlt) as [Hstart Hstop].
    rewrite (call_wl2freq_nonzero _ Hstart), (call_wl2freq_nonzero _ Hstop).
    cbn [rbind fst snd].
    rewrite linspace_uniform by exact Hn. simpl rbind.
    eexists. split; [reflexivity|]. simpl. repeat split; auto; lra.
  - cbn [rbind fst snd].
    rewrite linspace_uniform by exact Hn. simpl rbind.
    eexists. split; [reflexivity|]. simpl. repeat split; auto; lra.
Qed.

(** A wavelength bound of zero makes the constructor raise. *)
Lemma init_zero_wavelength (start stop : R) (num : Z) :
  start < 1 -> start = 0 \/ stop = 0 ->
  SweepSimulator___init__ start stop num
  = Raise (ZeroDivisionError "float division by zero").
Proof.
  intros Hlt Hz. unfold SweepSimulator___init__.
  destruct (Rlt_dec start 1) as [_|Hge]; [|contradiction].
  destruct (Req_dec_T start 0) as [E0|N0].
  - rewrite E0, call_wl2freq_zero. reflexivity.
  - destruct Hz as [E0|E0]; [contradiction|].
    rewrite (call_wl2freq_nonzero _ N0), E0, call_wl2freq_zero. reflexivity.
Qed.

(** C6, as the code has it.  [SweepSimulator(start, stop, num)] with a
    nonnegative [num]: when the bounds are below 1 and not zero the
    simulator is in wavelength mode and its grid is the uniform grid of
    [num] points from [speed_of_light/start] to [speed_of_light/stop]; when
    the start bound is below 1 and one of the bounds is zero the conversion
    raises [ZeroDivisionError]; when the bounds are 1 or more the simulator
    is in frequency mode and its grid is the uniform grid of [num] points
    from [start] to [stop]. *)
Theorem sweep_mode_detection (start stop : R) (num : Z) :
  (0 <= num)%Z ->
  (start < 1 -> stop < 1 -> start <> 0 -> stop <> 0 ->
   exists sim,
     SweepSimulator___init__ start stop num = Ok sim
     /\ mode sim = wl
     /\ freqs sim = uniform_grid (SPEED_OF_LIGHT / start)
                      (SPEED_OF_LIGHT / stop) (Z.to_nat num)
     /\ length (freqs sim) = Z.to_nat num)
  /\ (start < 1 -> start = 0 \/ stop = 0 ->
      SweepSimulator___init__ start stop num
      = Raise (ZeroDivisionError "float division by zero"))
  /\ (1 <= start -> 1 <= stop ->
      exists sim,
        SweepSimulator___init__ start stop num = Ok sim
        /\ mode sim = freq
        /\ freqs sim = uniform_grid start stop (Z.to_nat num)
        /\ length (freqs sim) = Z.to_nat num).
Proof.
  intros Hn. split; [|split].
  - intros Hs _ Hstart Hstop.
    destruct (init_outcome start stop num Hn ltac:(auto))
      as (sim & E & _ & _ & Hwl & _).
    destruct (Hwl Hs) as [Hm Hf].
    exists sim. repeat split; auto. rewrite Hf. apply uniform_grid_length.
  - apply init_zero_wavelength.
  - intros Hs _.
    destruct (init_outcome start stop num Hn ltac:(intros; lra))
      as (sim & E & _ & _ & _ & Hfr).
    destruct (Hfr Hs) as [Hm Hf].
    exists sim. repeat split; auto. rewrite Hf. apply uniform_grid_length.
Qed.

Lemma sweep_mode_detection_witness :
  (exists sim,
      SweepSimulator___init__ 1.5e-6 1.6e-6 3 = Ok sim
      /\ mode sim = wl
      /\ freqs sim = uniform_grid (SPEED_OF_LIGHT / 1.5e-6)
                       (SPEED_OF_LIGHT / 1.6e-6) (Z.to_nat 3)
      /\ length (freqs sim) = Z.to_nat 3)
  /\ (exists sim,
        SweepSimulator___init__ 1.87e14 2e14 5 = Ok sim
        /\ mode sim = freq
        /\ freqs sim = uniform_grid 1.87e14 2e14 (Z.to_nat 5)
        /\ length (freqs sim) = Z.to_nat 5).
Proof.
  split.
  - apply (proj1 (sweep_mode_detection 1.5e-6 1.6e-6 3 ltac:(lia))); lra.
  - apply (proj2 (proj2 (sweep_mode_detection 1.87e14 2e14 5 ltac:(lia))));
      lra.
Defined.

(** C6, counterexample.  With the bounds 0 and 0.5, both below 1, the
    constructor returns no simulator: converting the zero wavelength
    raises. *)
Lemma sweep_zero_wavelength_raises :
  SweepSimulator___init__ 0 0.5 3
  = Raise (ZeroDivisionError "float division by zero")
  /\ forall sim, SweepSimulator___init__ 0 0.5 3 <> Ok sim.
Proof.
  assert (E : SweepSimulator___init__ 0 0.5 3
              = Raise (ZeroDivisionError "float division by zero"))
    by (apply init_zero_wavelength; [lra | now left]).
  split; [exact E|]. intros sim. rewrite E. discriminate.
Qed.

Section SweepFacts.

Context {Mdl Rng : Type} `{Protocol Mdl Rng}.

Lemma simulate_ok_inv (self : Simulator) dB fr fs m (w w' : World Mdl Rng)
  f column :
  Simulator_simulate self dB fr fs m w = (Ok (f, column), w') ->
  f = (if truthy fr then Some (Scalar0 fr) else fs)
  /\ w' = add_events w [to_subcircuit_called false; method_called m].
Proof.
  intros Hrun.
  destruct (connected_dec self) as [Hc|Hu].
  2:{ rewrite (simulate_unconnected _ _ _ _ _ _ Hu) in Hrun. discriminate. }
  rewrite (simulate_connected _ _ _ _ _ _ Hc) in Hrun.
  destruct (to_subcircuit (circuit w) false) as [sub|e]; [|discriminate].
  injection Hrun as Hex <-. split; [|reflexivity].
  unfold extract in Hex.
  repeat (apply rbind_ok_inv in Hex as (? & _ & Hex)).
  now injection Hex as <- _.
Qed.

Lemma simulate_frame (self : Simulator) dB fr fs m (w : World Mdl Rng) :
  exists events,
    snd (Simulator_simulate self dB fr fs m w) = add_events w events.
Proof.
  destruct (connected_dec self) as [Hc|Hu].
  - rewrite (simulate_connected _ _ _ _ _ _ Hc).
    destruct (to_subcircuit (circuit w) false); simpl; eauto.
  - rewrite (simulate_unconnected _ _ _ _ _ _ Hu). simpl.
    exists []. now rewrite add_events_nil.
Qed.

Lemma simulate_indep (self : Simulator) dB fr fs m (w1 w2 : World Mdl Rng) :
  circuit w1 = circuit w2 ->
  fst (Simulator_simulate self dB fr fs m w1)
  = fst (Simulator_simulate self dB fr fs m w2).
Proof.
  intros E.
  destruct (connected_dec self) as [Hc|Hu].
  - rewrite !(simulate_connected _ _ _ _ _ _ Hc), E.
    destruct (to_subcircuit (circuit w2) false); reflexivity.
  - now rewrite !(simulate_unconnected _ _ _ _ _ _ Hu).
Qed.

Lemma sweep_unfold (self : SweepSimulator) (kwargs : Kwargs)
  (w : World Mdl Rng) :
  SweepSimulator_simulate self kwargs w
  = match kw_freqs kwargs with
    | Some _ =>
        (Raise (TypeError
                  "got multiple values for keyword argument 'freqs'"), w)
    | None =>
        (sweep_result (mode self)
           (fst (Simulator_simulate_kw (base self)
                   (with_freqs kwargs (freqs self)) w)),
         snd (Simulator_simulate_kw (base self)
                (with_freqs kwargs (freqs self)) w))
    end.
Proof.
  unfold SweepSimulator_simulate.
  destruct (kw_freqs kwargs); [reflexivity|].
  unfold bind. fold (with_freqs kwargs (freqs self)).
  destruct (Simulator_simulate_kw _ _ w) as [[[f column]|e] w1]; simpl;
    [|reflexivity].
  destruct (mode self); [|reflexivity].
  unfold bind, lift, ret. destruct (freq2wl_array f); reflexivity.
Qed.

Lemma sweep_frame (self : SweepSimulator) kwargs (w : World Mdl Rng) :
  exists events,
    snd (SweepSimulator_simulate self kwargs w) = add_events w events.
Proof.
  rewrite sweep_unfold. destruct (kw_freqs kwargs); simpl.
  - exists []. now rewrite add_events_nil.
  - apply simulate_frame.
Qed.

Lemma sweep_indep (self : SweepSimulator) kwargs (w1 w2 : World Mdl Rng) :
  circuit w1 = circuit w2 ->
  fst (SweepSimulator_simulate self kwargs w1)
  = fst (SweepSimulator_simulate self kwargs w2).
Proof.
  intros E. rewrite !sweep_unfold.
  destruct (kw_freqs kwargs); simpl; [reflexivity|].
  unfold Simulator_simulate_kw.
  now rewrite (simulate_indep _ _ _ _ _ w1 w2 E).
Qed.

(** A sweep that returns made the two calls of one reduction. *)
Lemma sweep_ok_inv (self : SweepSimulator) kwargs (w w' : World Mdl Rng)
  out ratios :
  SweepSimulator_simulate self kwargs w = (Ok (out, ratios), w') ->
  kw_freqs kwargs = None
  /\ w' = add_events w
            [to_subcircuit_called false;
             method_called
               (default s_parameters (kw_s_parameters_method kwargs))]
  /\ exists column,
      Simulator_simulate_kw (base self) (with_freqs kwargs (freqs self)) w
      = (Ok (if truthy (default 0 (kw_freq kwargs))
             then Some (Scalar0 (default 0 (kw_freq kwargs)))
             else Some (Array1 (freqs self)), column), w')
      /\ sweep_result (mode self)
           (Ok (if truthy (default 0 (kw_freq kwargs))
                then Some (Scalar0 (default 0 (kw_freq kwargs)))
                else Some (Array1 (freqs self)), column))
         = Ok (out, ratios).
Proof.
  rewrite sweep_unfold.
  destruct (kw_freqs kwargs); [discriminate|].
  destruct (Simulator_simulate_kw _ _ w) as [[[f column]|e] w1] eqn:Hrun;
    simpl; [|discriminate].
  intros E. injection E as Hres <-.
  unfold Simulator_simulate_kw in Hrun. simpl in Hrun.
  destruct (simulate_ok_inv _ _ _ _ _ _ _ _ _ Hrun) as [-> ->].
  split; [reflexivity|]. split; [reflexivity|].
  exists column. split; [reflexivity | exact Hres].
Qed.

(** In wavelength mode, without a [freq] argument, the wavelengths come back
    in the order of the grid and the ratios in the reverse of the order
    [Simulator.simulate] returned them in. *)
Lemma sweep_wavelength_outcome (self : SweepSimulator) kwargs
  (w w' : World Mdl Rng) out ratios :
  mode self = wl ->
  kw_freq kwargs = None ->
  SweepSimulator_simulate self kwargs w = (Ok (out, ratios), w') ->
  exists column,
    Simulator_simulate_kw (base self) (with_freqs kwargs (freqs self)) w
    = (Ok (Some (Array1 (freqs self)), column), w')
    /\ out = Some (Array1 (map freq2wl (freqs self)))
    /\ ratios = rev column.
Proof.
  intros Hm Hf Hrun.
  apply sweep_ok_inv in Hrun as (_ & _ & column & Hsim & Hres).
  rewrite Hf in Hsim, Hres. simpl default in Hsim, Hres.
  rewrite truthy_zero in Hsim, Hres.
  rewrite Hm in Hres. simpl in Hres. injection Hres as <- <-.
  exists column. auto.
Qed.

End SweepFacts.

(** * Properties of the Monte Carlo loop *)

Section MonteCarloFacts.

Context {Mdl Rng : Type} `{Protocol Mdl Rng}.

Lemma regenerate_from_spec (components : list Mdl) :
  forall (i : nat) (g : Rng) (tr : list Event),
    regenerate_from i components g tr
    = (fst (regenerate_round components g),
       snd (regenerate_round components g),
       tr ++ map regenerate_called (seq i (length components))).
Proof.
  induction components as [|c rest IH]; intros i g tr; simpl.
  - now rewrite app_nil_r.
  - destruct (regenerate_monte_carlo_parameters c g) as [c' g'].
    rewrite IH. destruct (regenerate_round rest g') as [rest' g'']. simpl.
    now rewrite <- app_assoc.
Qed.

Lemma regenerate_round_length (components : list Mdl) :
  forall g, length (fst (regenerate_round components g)) = length components.
Proof.
  induction components as [|c rest IH]; intros g; simpl; [reflexivity|].
  destruct (regenerate_monte_carlo_parameters c g) as [c' g'].
  specialize (IH g'). destruct (regenerate_round rest g') as [rest' g''].
  simpl in *. now rewrite IH.
Qed.

Lemma regenerate_all_spec (w : World Mdl Rng) :
  regenerate_all w
  = (Ok tt,
     {| circuit := fst (regenerate_round (circuit w) (rng w));
        rng := snd (regenerate_round (circuit w) (rng w));
        trace := trace w ++ regenerate_events (length (circuit w)) |}).
Proof. unfold regenerate_all. now rewrite regenerate_from_spec. Qed.

Lemma after_rounds_length (k : nat) :
  forall components g,
    length (fst (after_rounds k components g)) = length components.
Proof.
  induction k as [|k IH]; intros components g; simpl; [reflexivity|].
  pose proof (regenerate_round_length components g) as Hl.
  destruct (regenerate_round components g) as [components' g'].
  simpl in Hl. now rewrite IH.
Qed.

(** A further pass comes last. *)
Lemma after_rounds_S (k : nat) :
  forall components g,
    after_rounds (S k) components g
    = regenerate_round (fst (after_rounds k components g))
        (snd (after_rounds k components g)).
Proof.
  induction k as [|k IH]; intros components g.
  - simpl. now destruct (regenerate_round components g).
  - change (after_rounds (S (S k)) components g)
      with (let (components', g') := regenerate_round components g in
            after_rounds (S k) components' g').
    change (after_rounds (S k) components g)
      with (let (components', g') := regenerate_round components g in
            after_rounds k components' g').
    destruct (regenerate_round components g) as [components' g'].
    apply IH.
Qed.

Lemma trial_unfold (self : SweepSimulator) (kwargs : Kwargs) (i : nat)
  (w : World Mdl Rng) :
  trial self kwargs i w
  = match kw_s_parameters_method kwargs with
    | Some _ =>
        (Raise (TypeError
           "got multiple values for keyword argument 's_parameters_method'"),
         w)
    | None =>
        SweepSimulator_simulate self
          {| kw_dB := kw_dB kwargs;
             kw_freq := kw_freq kwargs;
             kw_freqs := kw_freqs kwargs;
             kw_s_parameters_method := Some (method_of_trial i) |} w
    end.
Proof. unfold trial. destruct (kw_s_parameters_method kwargs); reflexivity. Qed.

Lemma trial_indep (self : SweepSimulator) kwargs i (w1 w2 : World Mdl Rng) :
  circuit w1 = circuit w2 ->
  fst (trial self kwargs i w1) = fst (trial self kwargs i w2).
Proof.
  intros E. rewrite !trial_unfold.
  destruct (kw_s_parameters_method kwargs); [reflexivity|].
  now apply sweep_indep.
Qed.

Lemma trial_ok_inv (self : SweepSimulator) kwargs i (w w' : World Mdl Rng) r :
  trial self kwargs i w = (Ok r, w') ->
  kw_s_parameters_method kwargs = None
  /\ w' = add_events w (trial_events i).
Proof.
  rewrite trial_unfold.
  destruct (kw_s_parameters_method kwargs); [discriminate|].
  destruct r as [out ratios]. intros Hrun.
  apply sweep_ok_inv in Hrun as (_ & -> & _). auto.
Qed.

(** With no [s_parameters_method] among the caller's keyword arguments,
    trial 0 is the call a plain sweep makes. *)
Lemma trial_0_is_sweep (self : SweepSimulator) kwargs (w : World Mdl Rng) :
  kw_s_parameters_method kwargs = None ->
  trial self kwargs 0 w = SweepSimulator_simulate self kwargs w.
Proof.
  intros E. rewrite trial_unfold, E, !sweep_unfold. simpl kw_freqs.
  destruct (kw_freqs kwargs); [reflexivity|].
  unfold Simulator_simulate_kw, with_freqs. simpl. now rewrite E.
Qed.

Lemma regenerated_0 (w : World Mdl Rng) : regenerated 0 w = w.
Proof. now destruct w. Qed.

(** What a completed run of the loop over [indices] has done. *)
Lemma trials_ok (self : SweepSimulator) (kwargs : Kwargs) (indices : list nat) :
  forall acc (w w' : World Mdl Rng) rs,
    trials self kwargs indices acc w = (Ok rs, w') ->
    exists results,
      rs = acc ++ results
      /\ length results = length indices
      /\ circuit w' = fst (after_rounds (length indices) (circuit w) (rng w))
      /\ rng w' = snd (after_rounds (length indices) (circuit w) (rng w))
      /\ trace w'
         = trace w ++ flat_map (round_events (length (circuit w))) indices
      /\ forall k i,
          nth_error indices k = Some i ->
          exists r, nth_error results k = Some r
                    /\ fst (trial self kwargs i (regenerated k w)) = Ok r.
Proof.
  induction indices as [|i rest IH]; intros acc w w' rs Hrun.
  - simpl in Hrun. injection Hrun as <- <-. exists []. simpl.
    rewrite !app_nil_r. repeat split; auto.
    intros [|k] j Hk; discriminate.
  - simpl in Hrun. unfold bind in Hrun.
    destruct (trial self kwargs i w) as [[r|e] w1] eqn:Ht; [|discriminate].
    destruct (trial_ok_inv _ _ _ _ _ _ Ht) as [_ Hw1].
    rewrite regenerate_all_spec in Hrun.
    set (w2 := {| circuit := _; rng := _; trace := _ |}) in Hrun.
    apply IH in Hrun as (results & -> & Hlen & Hc & Hg & Htr & Hres).
    assert (Hc1 : circuit w1 = circuit w) by now rewrite Hw1.
    assert (Hg1 : rng w1 = rng w) by now rewrite Hw1.
    assert (Hround : after_rounds (S (length rest)) (circuit w) (rng w)
                     = after_rounds (length rest) (circuit w2) (rng w2)).
    { simpl. unfold w2. simpl. rewrite Hc1, Hg1.
      now destruct (regenerate_round (circuit w) (rng w)). }
    exists (r :: results). split; [now rewrite <- app_assoc|].
    split; [simpl; now rewrite Hlen|].
    split; [simpl length; now rewrite Hround|].
    split; [simpl length; now rewrite Hround|].
    split.
    + rewrite Htr. unfold w2 at 1 2. simpl trace. simpl circuit.
      rewrite regenerate_round_length, Hc1, Hw1. simpl trace.
      unfold round_events at 2. simpl flat_map.
      now rewrite <- !app_assoc.
    + intros [|k] j Hk.
      * injection Hk as <-. exists r. split; [reflexivity|].
        now rewrite regenerated_0, Ht.
      * destruct (Hres k j Hk) as (r' & Hr' & Hout).
        exists r'. split; [exact Hr'|].
        rewrite <- Hout. apply trial_indep.
        unfold regenerated. simpl circuit.
        change (after_rounds (S k) (circuit w) (rng w))
          with (let (components', g') :=
                  regenerate_round (circuit w) (rng w) in
                after_rounds k components' g').
        unfold w2. simpl. rewrite Hc1, Hg1.
        now destruct (regenerate_round (circuit w) (rng w)).
Qed.

Lemma nth_error_range (n k i : nat) :
  nth_error (range n) k = Some i <-> (i = k /\ (k < n)%nat).
Proof.
  unfold range. split.
  - intros Hk.
    assert (Hlt : (k < n)%nat).
    { assert (Hl : (k < length (seq 0 n))%nat)
        by (apply nth_error_Some; now rewrite Hk).
      now rewrite length_seq in Hl. }
    split; [|exact Hlt].
    apply (nth_error_nth _ _ 0%nat) in Hk. rewrite seq_nth in Hk; lia.
  - intros [-> Hlt].
    rewrite (nth_error_nth' _ 0%nat) by (now rewrite length_seq).
    now rewrite seq_nth.
Qed.

(** What a completed Monte Carlo simulation has done. *)
Lemma monte_carlo_ok (self : SweepSimulator) (runs : Z) (kwargs : Kwargs)
  (w w' : World Mdl Rng) rs :
  MonteCarloSweepSimulator_simulate self runs kwargs w = (Ok rs, w') ->
  length rs = Z.to_nat runs
  /\ circuit w' = fst (after_rounds (Z.to_nat runs) (circuit w) (rng w))
  /\ rng w' = snd (after_rounds (Z.to_nat runs) (circuit w) (rng w))
  /\ trace w'
     = trace w
       ++ flat_map (round_events (length (circuit w))) (range (Z.to_nat runs))
  /\ forall k,
      (k < Z.to_nat runs)%nat ->
      exists r, nth_error rs k = Some r
                /\ fst (trial self kwargs k (regenerated k w)) = Ok r.
Proof.
  unfold MonteCarloSweepSimulator_simulate. intros Hrun.
  apply trials_ok in Hrun as (results & -> & Hlen & Hc & Hg & Htr & Hres).
  unfold range in Hlen, Hc, Hg. rewrite length_seq in Hlen, Hc, Hg.
  simpl. repeat split; auto.
  intros k Hk. apply Hres. apply nth_error_range. auto.
Qed.

Lemma trial_ok_method (self : SweepSimulator) kwargs i (w : World Mdl Rng) r :
  fst (trial self kwargs i w) = Ok r ->
  kw_s_parameters_method kwargs = None.
Proof.
  rewrite trial_unfold.
  destruct (kw_s_parameters_method kwargs); [discriminate | reflexivity].
Qed.

Lemma methods_called_app (a b : list Event) :
  methods_called (a ++ b) = methods_called a ++ methods_called b.
Proof.
  induction a as [|e a IH]; simpl; [reflexivity|].
  destruct e; simpl; now rewrite IH.
Qed.

Lemma methods_called_regenerate (n : nat) :
  methods_called (regenerate_events n) = [].
Proof.
  unfold regenerate_events, range. generalize 0%nat.
  induction n as [|n IH]; intros a; simpl; auto.
Qed.

Lemma methods_called_rounds (n : nat) (indices : list nat) :
  methods_called (flat_map (round_events n) indices)
  = map method_of_trial indices.
Proof.
  induction indices as [|i rest IH]; simpl; [reflexivity|].
  rewrite methods_called_app, methods_called_regenerate, IH. reflexivity.
Qed.

Lemma methods_of_range (n : nat) :
  map method_of_trial (range (S n))
  = s_parameters :: repeat monte_carlo_s_parameters n.
Proof.
  unfold range. simpl. f_equal.
  rewrite <- seq_shift, map_map.
  transitivity (map (fun _ : nat => monte_carlo_s_parameters) (seq 0 n)).
  - apply map_ext. reflexivity.
  - now rewrite map_const, length_seq.
Qed.

Lemma count_regenerate_events (n c : nat) :
  (c < n)%nat ->
  count_occ Event_eq_dec (regenerate_events n) (regenerate_called c) = 1%nat.
Proof.
  intros Hc. apply NoDup_count_occ'.
  - unfold regenerate_events, range. apply NoDup_map_NoDup_ForallPairs.
    + intros a b _ _ E. now injection E.
    + apply seq_NoDup.
  - unfold regenerate_events, range. apply in_map, in_seq. lia.
Qed.

Lemma count_trial_events (i c : nat) :
  count_occ Event_eq_dec (trial_events i) (regenerate_called c) = 0%nat.
Proof.
  apply count_occ_not_In. unfold trial_events.
  intros [E|[E|[]]]; discriminate.
Qed.

Lemma count_rounds (n c : nat) (indices : list nat) :
  (c < n)%nat ->
  count_occ Event_eq_dec (flat_map (round_events n) indices)
    (regenerate_called c)
  = length indices.
Proof.
  intros Hc. induction indices as [|i rest IH]; [reflexivity|].
  cbn [flat_map length]. unfold round_events at 1.
  rewrite !count_occ_app, count_trial_events, count_regenerate_events, IH
    by exact Hc.
  reflexivity.
Qed.

Lemma range_split (n k : nat) :
  (k + 1 < n)%nat ->
  range n = range k ++ [k; S k] ++ seq (k + 2) (n - k - 2).
Proof.
  intros Hk. unfold range.
  replace n with (k + (2 + (n - k - 2)))%nat at 1 by lia.
  rewrite seq_app, seq_app. simpl.
  replace (k + 2)%nat with (S (S k)) by lia. reflexivity.
Qed.

(** C3.  When a Monte Carlo simulation of at least one run returns, its
    first result is the result of a direct [SweepSimulator.simulate] call
    with the same keyword arguments in the same world (same circuit, same
    grid); the matrix methods called are [s_parameters] once and then
    [monte_carlo_s_parameters] for each of the remaining runs; and trial
    [k] for [1 <= k < runs] is the sweep evaluated with
    [monte_carlo_s_parameters] on the components as they are after [k]
    passes of redrawing. *)
Theorem monte_carlo_first_trial_is_nominal (self : SweepSimulator) (runs : Z)
  (kwargs : Kwargs) (w w' : World Mdl Rng)
  (rs : list (option ndarray * list R)) :
  (1 <= runs)%Z ->
  MonteCarloSweepSimulator_simulate self runs kwargs w = (Ok rs, w') ->
  (exists r0,
      nth_error rs 0 = Some r0
      /\ fst (SweepSimulator_simulate self kwargs w) = Ok r0)
  /\ (exists events,
        trace w' = trace w ++ events
        /\ methods_called events
           = s_parameters
             :: repeat monte_carlo_s_parameters (Z.to_nat runs - 1))
  /\ (forall k,
        (1 <= k < Z.to_nat runs)%nat ->
        method_of_trial k = monte_carlo_s_parameters
        /\ exists r,
            nth_error rs k = Some r
            /\ fst (trial self kwargs k (regenerated k w)) = Ok r).
Proof.
  intros Hruns Hrun.
  apply monte_carlo_ok in Hrun as (Hlen & _ & _ & Htr & Hres).
  split; [|split].
  - destruct (Hres 0%nat ltac:(lia)) as (r0 & Hr0 & Hout).
    exists r0. split; [exact Hr0|].
    rewrite regenerated_0 in Hout.
    now rewrite <- (trial_0_is_sweep _ _ _ (trial_ok_method _ _ _ _ _ Hout)).
  - eexists. split; [exact Htr|].
    rewrite methods_called_rounds.
    replace (Z.to_nat runs) with (S (Z.to_nat runs - 1)) at 1 by lia.
    apply methods_of_range.
  - intros k Hk. split.
    + unfold method_of_trial. destruct k; [lia | reflexivity].
    + apply Hres. lia.
Qed.

(** C7.  When a Monte Carlo simulation returns, then for every [k] with
    [k + 1 < runs] the calls made are: those of the first [k] rounds, the
    reduction of trial [k], one redraw on each component of the circuit in
    turn, the reduction of trial [k+1], and the rest.  Trial [k+1] is
    evaluated on the components that this redraw produced from the
    components trial [k] was evaluated on. *)
Theorem monte_carlo_regenerates_between_trials (self : SweepSimulator)
  (runs : Z) (kwargs : Kwargs) (w w' : World Mdl Rng)
  (rs : list (option ndarray * list R)) (k : nat) :
  MonteCarloSweepSimulator_simulate self runs kwargs w = (Ok rs, w') ->
  (k + 1 < Z.to_nat runs)%nat ->
  (exists rest,
      trace w'
      = trace w
        ++ flat_map (round_events (length (circuit w))) (range k)
        ++ trial_events k
        ++ regenerate_events (length (circuit w))
        ++ trial_events (S k)
        ++ rest)
  /\ (forall c, (c < length (circuit w))%nat ->
                In (regenerate_called c)
                   (regenerate_events (length (circuit w))))
  /\ (exists r r',
        nth_error rs k = Some r
        /\ fst (trial self kwargs k (regenerated k w)) = Ok r
        /\ nth_error rs (S k) = Some r'
        /\ fst (trial self kwargs (S k) (regenerated (S k) w)) = Ok r')
  /\ (circuit (regenerated (S k) w), rng (regenerated (S k) w))
     = regenerate_round (circuit (regenerated k w)) (rng (regenerated k w)).
Proof.
  intros Hrun Hk.
  apply monte_carlo_ok in Hrun as (Hlen & _ & _ & Htr & Hres).
  split; [|split; [|split]].
  - exists (regenerate_events (length (circuit w))
            ++ flat_map (round_events (length (circuit w)))
                 (seq (k + 2) (Z.to_nat runs - k - 2))).
    rewrite Htr, (range_split _ _ Hk), !flat_map_app.
    f_equal. f_equal. cbn [flat_map]. unfold round_events.
    rewrite app_nil_r, <- !app_assoc. reflexivity.
  - intros c Hc. unfold regenerate_events, range.
    apply in_map, in_seq. lia.
  - destruct (Hres k ltac:(lia)) as (r & Hr & Hout).
    destruct (Hres (S k) ltac:(lia)) as (r' & Hr' & Hout').
    exists r, r'. auto.
  - unfold regenerated. cbn [circuit rng].
    rewrite after_rounds_S.
    now destruct (regenerate_round _ _).
Qed.

(** C10.  When a Monte Carlo simulation with [runs = n] returns, each
    component of the circuit has been redrawn exactly [n] times; for
    [n >= 1] the last calls made are the redraws that follow the final
    trial; the components and the generator are left as [n] passes of
    redrawing make them; and every returned result is that of a trial
    [k < n] evaluated on the components after only [k] passes. *)
Theorem monte_carlo_regenerates_after_every_trial (self : SweepSimulator)
  (runs : Z) (kwargs : Kwargs) (w w' : World Mdl Rng)
  (rs : list (option ndarray * list R)) :
  MonteCarloSweepSimulator_simulate self runs kwargs w = (Ok rs, w') ->
  exists events,
    trace w' = trace w ++ events
    /\ (forall c, (c < length (circuit w))%nat ->
                  count_occ Event_eq_dec events (regenerate_called c)
                  = Z.to_nat runs)
    /\ ((1 <= runs)%Z ->
        events
        = flat_map (round_events (length (circuit w)))
            (range (Z.to_nat runs - 1))
          ++ trial_events (Z.to_nat runs - 1)
          ++ regenerate_events (length (circuit w)))
    /\ (circuit w', rng w')
       = after_rounds (Z.to_nat runs) (circuit w) (rng w)
    /\ length rs = Z.to_nat runs
    /\ forall k r,
        nth_error rs k = Some r ->
        (k < Z.to_nat runs)%nat
        /\ fst (trial self kwargs k (regenerated k w)) = Ok r.
Proof.
  intros Hrun.
  apply monte_carlo_ok in Hrun as (Hlen & Hc & Hg & Htr & Hres).
  eexists. split; [exact Htr|].
  split; [|split; [|split; [|split]]].
  - intros c Hlt. rewrite (count_rounds _ _ _ Hlt).
    unfold range. apply length_seq.
  - intros Hruns.
    replace (Z.to_nat runs) with (S (Z.to_nat runs - 1)) at 1 by lia.
    rewrite range_S, flat_map_app. cbn [flat_map].
    rewrite app_nil_r. reflexivity.
  - rewrite Hc, Hg. now destruct (after_rounds _ _ _).
  - exact Hlen.
  - intros k r Hk.
    assert (Hlt : (k < Z.to_nat runs)%nat).
    { rewrite <- Hlen. apply nth_error_Some. now rewrite Hk. }
    split; [exact Hlt|].
    destruct (Hres k Hlt) as (r' & Hr' & Hout).
    rewrite Hk in Hr'. now injection Hr' as <-.
Qed.

End MonteCarloFacts.

(** * The simulators on the test circuit *)

Lemma slice_through (g : np.complex -> R) (t : R -> np.complex) (K : list R) :
  slice (map3 g (map (fun k => through (t k)) K)) 0 1
  = Ok (map (fun k => g (t k)) K).
Proof.
  induction K as [|k K IH]; [reflexivity|].
  change (map3 g (map (fun k => through (t k)) (k :: K)))
    with (map (map g) (through (t k))
            :: map3 g (map (fun k => through (t k)) K)).
  cbn [slice]. rewrite IH. reflexivity.
Qed.

Lemma fixture_matrices (L : R) (f : option ndarray) (xs : list R) :
  Fixture.samples f = Ok xs ->
  exists K, length K = length xs
            /\ Fixture.matrices L f
               = Ok (map (fun k => through (transmission k L)) K).
Proof.
  intros Hs. unfold Fixture.matrices. rewrite Hs. simpl rbind.
  destruct (Lumerical_1550_returns Fixture.coeffs xs L 5e-7 2.2e-7 0)
    as (K & HK & ->).
  exists K. split; [exact HK | reflexivity].
Qed.

Lemma fixture_getattr (wg : Fixture.Waveguide) (sub : Subcircuit)
  (m : SParametersMethod) (f : option ndarray) (xs : list R) :
  Fixture.reduce [wg] false = Ok sub ->
  Fixture.samples f = Ok xs ->
  exists K, length K = length xs
            /\ sub_pins sub = [0%nat; 1%nat]
            /\ getattr sub m f
               = Ok (map (fun k => through
                            (transmission k (Fixture.effective_length wg m)))
                         K).
Proof.
  intros Hr Hs. simpl in Hr. injection Hr as <-.
  destruct (fixture_matrices (Fixture.effective_length wg m) f xs Hs)
    as (K & HK & E).
  exists K. destruct m; simpl; auto.
Qed.

(** On the test circuit a connected simulator returns one ratio per
    frequency sample, each the power ratio of a transmission entry. *)
Lemma fixture_simulate (wg : Fixture.Waveguide) (dB : bool) (fr : R)
  (fs : option ndarray) (m : SParametersMethod)
  (w : World Fixture.Waveguide nat) (xs : list R) :
  circuit w = [wg] ->
  Fixture.samples (if truthy fr then Some (Scalar0 fr) else fs) = Ok xs ->
  exists K,
    length K = length xs
    /\ Simulator_simulate Fixture.simulator dB fr fs m w
       = (Ok (if truthy fr then Some (Scalar0 fr) else fs,
              map (fun k => power_ratio dB
                              (transmission k
                                 (Fixture.effective_length wg m))) K),
          add_events w [to_subcircuit_called false; method_called m]).
Proof.
  intros Hw Hs.
  rewrite simulate_connected by (split; reflexivity).
  rewrite Hw.
  change (to_subcircuit [wg] false) with (Fixture.reduce [wg] false).
  destruct (Fixture.reduce [wg] false) as [sub|e] eqn:Hr; [|discriminate].
  destruct (fixture_getattr wg sub m _ xs Hr Hs) as (K & HK & Hp & Hg).
  unfold extract. rewrite Hg, Hp. simpl rbind.
  rewrite (slice_through (power_ratio dB)
             (fun k => transmission k (Fixture.effective_length wg m))).
  simpl rbind.
  exists K. split; [exact HK | reflexivity].
Qed.

(** C5: an unconnected simulator on the test circuit, and a connected one. *)
Lemma generate_requires_connection_witness :
  Simulator__generate Fixture.unconnected (Some (Array1 [1.9e14]))
    s_parameters Fixture.world
  = (Raise not_connected_error, Fixture.world)
  /\ exists r events,
      Simulator__generate Fixture.simulator (Some (Array1 [1.9e14]))
        s_parameters Fixture.world
      = (r, add_events Fixture.world (to_subcircuit_called false :: events)).
Proof.
  split.
  - apply (proj1 (generate_requires_connection Fixture.unconnected
                    (Some (Array1 [1.9e14])) s_parameters Fixture.world)).
    left. reflexivity.
  - apply (proj2 (generate_requires_connection Fixture.simulator
                    (Some (Array1 [1.9e14])) s_parameters Fixture.world)).
    split; reflexivity.
Defined.

(** C4: a run in decibel mode on the test circuit. *)
Lemma simulate_returns_power_ratios_witness :
  exists column w',
    Simulator_simulate Fixture.simulator true 0
      (Some (Array1 [1.9e14; 1.95e14])) s_parameters Fixture.world
    = (Ok (Some (Array1 [1.9e14; 1.95e14]), column), w')
    /\ exists sub s_params input output,
        to_subcircuit (circuit Fixture.world) false = Ok sub
        /\ getattr sub s_parameters (Some (Array1 [1.9e14; 1.95e14]))
           = Ok s_params
        /\ PinList_index (sub_pins sub)
             (_connection (pins_input Fixture.simulator)) = Ok input
        /\ PinList_index (sub_pins sub)
             (_connection (pins_output Fixture.simulator)) = Ok output
        /\ column
           = map (fun mat =>
                    if true
                    then np.log10 (np.abs (entry mat input output) ^ 2)
                    else np.abs (entry mat input output) ^ 2) s_params.
Proof.
  destruct (fixture_simulate _ true 0 (Some (Array1 [1.9e14; 1.95e14]))
              s_parameters Fixture.world [1.9e14; 1.95e14] eq_refl)
    as (K & _ & Hrun).
  { rewrite truthy_zero. reflexivity. }
  rewrite truthy_zero in Hrun.
  eexists. eexists. split; [exact Hrun|].
  exact (simulate_returns_power_ratios _ _ _ _ _ _ _ _ _ Hrun).
Defined.

(** C2, counterexample.  On the test circuit a call that supplies both
    [freq] and [freqs] reaches the waveguide model with the zero-dimensional
    [np.array(freq)] and raises the [TypeError] of its [len].  On an
    unconnected simulator a call that supplies both, and a call that
    supplies neither, raise the "must be connected" [RuntimeError].  None
    of the three raises [ValueError]. *)
Lemma simulate_raises_no_ValueError :
  fst (Simulator_simulate Fixture.simulator false 1.9e14
         (Some (Array1 [1.9e14; 1.95e14])) s_parameters Fixture.world)
  = Raise (TypeError "len() of unsized object")
  /\ fst (Simulator_simulate Fixture.unconnected false 1.9e14
            (Some (Array1 [1.9e14; 1.95e14])) s_parameters Fixture.world)
     = Raise (RuntimeError "Simulator must be connected before simulating.")
  /\ fst (Simulator_simulate Fixture.unconnected false 0 None
            s_parameters Fixture.world)
     = Raise (RuntimeError "Simulator must be connected before simulating.").
Proof.
  assert (N : 1.9e14 <> 0) by lra.
  split; [|split].
  - rewrite simulate_connected by (split; reflexivity).
    rewrite (truthy_nonzero _ N). reflexivity.
  - rewrite simulate_unconnected by (left; reflexivity). reflexivity.
  - rewrite simulate_unconnected by (left; reflexivity). reflexivity.
Qed.

(** ** The sweep on the test circuit *)

Lemma ratio_of_transmission (k L : R) :
  power_ratio false (transmission k L) = Rtrigo_def.exp (- alpha * L) ^ 2.
Proof. unfold power_ratio. now rewrite abs_transmission. Qed.

(** Without [dB] and without [freq], a sweep over the test circuit returns
    the same ratio for every sample of its grid. *)
Lemma fixture_sweep (sim : SweepSimulator) (wg : Fixture.Waveguide)
  (m : option SParametersMethod) (w : World Fixture.Waveguide nat) :
  circuit w = [wg] ->
  SweepSimulator_simulate (connect sim 0%nat 1%nat)
    {| kw_dB := None; kw_freq := None; kw_freqs := None;
       kw_s_parameters_method := m |} w
  = (Ok (match mode sim with
         | wl => Some (Array1 (map freq2wl (freqs sim)))
         | freq => Some (Array1 (freqs sim))
         end,
         repeat (Rtrigo_def.exp
                   (- alpha * Fixture.effective_length wg
                                (default s_parameters m)) ^ 2)
                (length (freqs sim))),
     add_events w [to_subcircuit_called false;
                   method_called (default s_parameters m)]).
Proof.
  intros Hw. rewrite sweep_unfold. simpl kw_freqs. cbv iota.
  unfold Simulator_simulate_kw, with_freqs. simpl.
  change {| pins_input := {| _connection := Some 0%nat |};
            pins_output := {| _connection := Some 1%nat |} |}
    with Fixture.simulator.
  destruct (fixture_simulate wg false 0 (Some (Array1 (freqs sim)))
              (default s_parameters m) w (freqs sim) Hw) as (K & HK & Hrun).
  { rewrite truthy_zero. reflexivity. }
  assert (E : map (fun k => power_ratio false
                     (transmission k
                        (Fixture.effective_length wg
                           (default s_parameters m)))) K
              = repeat (Rtrigo_def.exp
                          (- alpha * Fixture.effective_length wg
                                       (default s_parameters m)) ^ 2)
                       (length (freqs sim))).
  { rewrite <- HK, <- map_const. apply map_ext. intros k.
    apply ratio_of_transmission. }
  rewrite E, truthy_zero in Hrun. rewrite Hrun. simpl fst; simpl snd.
  unfold sweep_result.
  destruct (mode sim); simpl; [|reflexivity].
  unfold np.flip. now rewrite rev_repeat.
Qed.

Lemma wavelength_grid_values :
  map freq2wl
    (uniform_grid (SPEED_OF_LIGHT / 1.5e-6) (SPEED_OF_LIGHT / 1.6e-6) 3)
  = [1.5e-6; 4.8e-6 / 3.1; 1.6e-6].
Proof.
  unfold uniform_grid, range, freq2wl, SPEED_OF_LIGHT. simpl.
  f_equal; [lra|]. f_equal; [lra|]. f_equal. lra.
Qed.

Lemma init_wavelength_sweep (sim : SweepSimulator) :
  SweepSimulator___init__ 1.5e-6 1.6e-6 3 = Ok sim ->
  mode sim = wl
  /\ map freq2wl (freqs sim) = [1.5e-6; 4.8e-6 / 3.1; 1.6e-6].
Proof.
  intros E.
  destruct (init_outcome 1.5e-6 1.6e-6 3 ltac:(lia) ltac:(intros; split; lra))
    as (sim' & E' & _ & _ & Hwl & _).
  rewrite E in E'. injection E' as <-.
  destruct Hwl as [Hm Hf]; [lra|].
  split; [exact Hm|]. rewrite Hf. exact wavelength_grid_values.
Qed.

Lemma fixture_wavelength_sweep (sim : SweepSimulator)
  (wg : Fixture.Waveguide) (w : World Fixture.Waveguide nat) :
  SweepSimulator___init__ 1.5e-6 1.6e-6 3 = Ok sim ->
  circuit w = [wg] ->
  SweepSimulator_simulate (connect sim 0%nat 1%nat) no_kwargs w
  = (Ok (Some (Array1 [1.5e-6; 4.8e-6 / 3.1; 1.6e-6]),
         repeat (Rtrigo_def.exp (- alpha * Fixture.wg_length wg) ^ 2) 3),
     add_events w [to_subcircuit_called false; method_called s_parameters]).
Proof.
  intros E Hw. destruct (init_wavelength_sweep sim E) as [Hm Hf].
  unfold no_kwargs.
  rewrite (fixture_sweep sim wg None w Hw).
  rewrite Hm, Hf.
  replace (length (freqs sim)) with 3%nat
    by (rewrite <- (length_map freq2wl), Hf; reflexivity).
  reflexivity.
Qed.

(** C1, as the code has it.  A [SweepSimulator] built with the wavelength
    bounds 1.5e-6 and 1.6e-6 and [num = 3], connected and run without a
    [freq] argument, returns when it returns the wavelengths
    [1.5e-6, 4.8e-6/3.1, 1.6e-6]: ascending, and uniform in frequency, so
    that the middle one is the harmonic mean of the bounds (about
    1.5484e-6) and not 1.55e-6.  On the circuit of a single straight
    waveguide the run returns, and every returned ratio is
    [exp(-alpha * length) ^ 2], the ratio of that waveguide at each of the
    three frequencies. *)
Theorem sweep_wavelength_mode_grid (sim : SweepSimulator) :
  SweepSimulator___init__ 1.5e-6 1.6e-6 3 = Ok sim ->
  (forall (Mdl Rng : Type) (P : Protocol Mdl Rng) (input output : PinId)
          (kwargs : Kwargs) (w w' : World Mdl Rng) out ratios,
      kw_freq kwargs = None ->
      SweepSimulator_simulate (connect sim input output) kwargs w
      = (Ok (out, ratios), w') ->
      out = Some (Array1 [1.5e-6; 4.8e-6 / 3.1; 1.6e-6]))
  /\ ascending [1.5e-6; 4.8e-6 / 3.1; 1.6e-6]
  /\ (forall (wg : Fixture.Waveguide) (w : World Fixture.Waveguide nat),
        circuit w = [wg] ->
        exists w',
          SweepSimulator_simulate (connect sim 0%nat 1%nat) no_kwargs w
          = (Ok (Some (Array1 [1.5e-6; 4.8e-6 / 3.1; 1.6e-6]),
                 repeat (Rtrigo_def.exp (- alpha * Fixture.wg_length wg) ^ 2)
                        3), w')).
Proof.
  intros E. destruct (init_wavelength_sweep sim E) as [Hm Hf].
  split; [|split].
  - intros Mdl Rng P input output kwargs w w' out ratios Hfreq Hrun.
    apply sweep_wavelength_outcome in Hrun as (column & _ & -> & _);
      [|exact Hm | exact Hfreq].
    simpl freqs. now rewrite Hf.
  - simpl. repeat split; lra.
  - intros wg w Hw. eexists. exact (fixture_wavelength_sweep sim wg w E Hw).
Qed.

(** C1 on the test circuit. *)
Lemma sweep_wavelength_mode_grid_witness :
  exists sim,
    SweepSimulator___init__ 1.5e-6 1.6e-6 3 = Ok sim
    /\ ascending [1.5e-6; 4.8e-6 / 3.1; 1.6e-6]
    /\ exists w',
        SweepSimulator_simulate (connect sim 0%nat 1%nat) no_kwargs
          Fixture.world
        = (Ok (Some (Array1 [1.5e-6; 4.8e-6 / 3.1; 1.6e-6]),
               repeat (Rtrigo_def.exp (- alpha * 1e-4) ^ 2) 3), w').
Proof.
  destruct (init_outcome 1.5e-6 1.6e-6 3 ltac:(lia) ltac:(intros; split; lra)) as (sim & E & _).
  exists sim. split; [exact E|].
  destruct (sweep_wavelength_mode_grid sim E) as (_ & Hasc & Hwg).
  split; [exact Hasc|].
  exact (Hwg _ Fixture.world eq_refl).
Defined.

(** C1, counterexample.  On the single-waveguide test circuit the sweep
    built with bounds 1.5e-6 and 1.6e-6 and [num = 3] returns, and the
    wavelengths it returns are not [1.5e-6, 1.55e-6, 1.6e-6]. *)
Lemma sweep_wavelengths_not_uniform :
  exists sim out ratios w',
    SweepSimulator___init__ 1.5e-6 1.6e-6 3 = Ok sim
    /\ SweepSimulator_simulate (connect sim 0%nat 1%nat) no_kwargs
         Fixture.world
       = (Ok (out, ratios), w')
    /\ out <> Some (Array1 [1.5e-6; 1.55e-6; 1.6e-6]).
Proof.
  destruct (init_outcome 1.5e-6 1.6e-6 3 ltac:(lia) ltac:(intros; split; lra)) as (sim & E & _).
  exists sim. do 3 eexists. split; [exact E|].
  split; [exact (fixture_wavelength_sweep sim _ Fixture.world E eq_refl)|].
  intros Heq. injection Heq as Hmid. lra.
Qed.

(** ** The Monte Carlo loop on the test circuit *)

Lemma fixture_trial (sim : SweepSimulator) (wg : Fixture.Waveguide) (i : nat)
  (w : World Fixture.Waveguide nat) :
  circuit w = [wg] ->
  exists r, trial (connect sim 0%nat 1%nat) no_kwargs i w
            = (Ok r, add_events w (trial_events i)).
Proof.
  intros Hw. rewrite trial_unfold. simpl.
  fold (method_of_trial i).
  rewrite (fixture_sweep sim wg (Some (method_of_trial i)) w Hw).
  eexists. reflexivity.
Qed.

Lemma fixture_trials (sim : SweepSimulator) (indices : list nat) :
  forall acc (wg : Fixture.Waveguide) (w : World Fixture.Waveguide nat),
    circuit w = [wg] ->
    exists rs w',
      trials (connect sim 0%nat 1%nat) no_kwargs indices acc w = (Ok rs, w').
Proof.
  induction indices as [|i rest IH]; intros acc wg w Hw.
  - simpl. unfold ret. eauto.
  - destruct (fixture_trial sim wg i w Hw) as (r & Ht).
    cbn [trials]. unfold bind at 1. rewrite Ht.
    unfold bind at 1. rewrite regenerate_all_spec.
    apply (IH _ (fst (Fixture.redraw wg (rng w)))).
    simpl. rewrite Hw. reflexivity.
Qed.

Lemma fixture_monte_carlo (runs : Z) :
  exists rs w',
    MonteCarloSweepSimulator_simulate (connect Fixture.sweep 0%nat 1%nat)
      runs no_kwargs Fixture.world
    = (Ok rs, w').
Proof.
  unfold MonteCarloSweepSimulator_simulate.
  exact (fixture_trials Fixture.sweep _ [] _ Fixture.world eq_refl).
Qed.

(** C3 on the test circuit, three runs. *)
Lemma monte_carlo_first_trial_is_nominal_witness :
  exists rs w',
    MonteCarloSweepSimulator_simulate (connect Fixture.sweep 0%nat 1%nat)
      3 no_kwargs Fixture.world
    = (Ok rs, w')
    /\ (exists r0,
          nth_error rs 0 = Some r0
          /\ fst (SweepSimulator_simulate (connect Fixture.sweep 0%nat 1%nat)
                    no_kwargs Fixture.world) = Ok r0)
    /\ (exists events,
          trace w' = trace Fixture.world ++ events
          /\ methods_called events
             = s_parameters
               :: repeat monte_carlo_s_parameters (Z.to_nat 3 - 1)).
Proof.
  destruct (fixture_monte_carlo 3) as (rs & w' & Hrun).
  exists rs, w'. split; [exact Hrun|].
  destruct (monte_carlo_first_trial_is_nominal _ 3 _ _ _ _ ltac:(lia) Hrun)
    as (H0 & Hm & _).
  split; [exact H0 | exact Hm].
Defined.

(** C7 on the test circuit, three runs, between trials 1 and 2. *)
Lemma monte_carlo_regenerates_between_trials_witness :
  exists rs w',
    MonteCarloSweepSimulator_simulate (connect Fixture.sweep 0%nat 1%nat)
      3 no_kwargs Fixture.world
    = (Ok rs, w')
    /\ exists rest,
        trace w'
        = trace Fixture.world
          ++ flat_map (round_events (length (circuit Fixture.world)))
               (range 1)
          ++ trial_events 1
          ++ regenerate_events (length (circuit Fixture.world))
          ++ trial_events 2
          ++ rest.
Proof.
  destruct (fixture_monte_carlo 3) as (rs & w' & Hrun).
  exists rs, w'. split; [exact Hrun|].
  refine (proj1 (monte_carlo_regenerates_between_trials _ 3 _ _ _ _ 1%nat
                   Hrun _)).
  simpl. lia.
Defined.

(** C10 on the test circuit, three runs. *)
Lemma monte_carlo_regenerates_after_every_trial_witness :
  exists rs w',
    MonteCarloSweepSimulator_simulate (connect Fixture.sweep 0%nat 1%nat)
      3 no_kwargs Fixture.world
    = (Ok rs, w')
    /\ exists events,
        trace w' = trace Fixture.world ++ events
        /\ (forall c, (c < length (circuit Fixture.world))%nat ->
                      count_occ Event_eq_dec events (regenerate_called c)
                      = Z.to_nat 3)
        /\ (circuit w', rng w')
           = after_rounds (Z.to_nat 3) (circuit Fixture.world)
               (rng Fixture.world).
Proof.
  destruct (fixture_monte_carlo 3) as (rs & w' & Hrun).
  exists rs, w'. split; [exact Hrun|].
  destruct (monte_carlo_regenerates_after_every_trial _ 3 _ _ _ _ Hrun)
    as (events & Htr & Hcount & _ & Hstate & _).
  exists events. split; [exact Htr|]. split; [exact Hcount | exact Hstate].
Defined.

(** C8 on two frequencies and a waveguide of length 1e-4. *)
Lemma waveguide_models_passive_witness :
  0 < alpha
  /\ exists s,
      Lumerical_1550.get_s_parameters Fixture.coeffs [1.9e14; 1.95e14]
        1e-4 5e-7 2.2e-7 0 = Ok ([1.9e14; 1.95e14], s)
      /\ Forall passive s
      /\ Forall (fun m =>
                   transmission_magnitude m (Rtrigo_def.exp (- alpha * 1e-4))
                   /\ singular_value m (Rtrigo_def.exp (- alpha * 1e-4)))
                s.
Proof.
  assert (Hf : Forall (fun f => 0 < f) [1.9e14; 1.95e14])
    by (repeat constructor; lra).
  assert (HL : 0 <= 1e-4) by lra.
  destruct (waveguide_models_passive (repeat 0 70) Fixture.coeffs
              [1.9e14; 1.95e14] 1e-4 5e-7 2.2e-7 0 Hf HL)
    as (Ha & _ & Hl).
  split; [exact Ha | exact Hl].
Defined.

(** C9 on the ANN model, two frequencies and all coefficients zero. *)
Lemma waveguide_models_reciprocal_reflectionless_witness :
  exists s,
    ANN_WG.get_s_parameters (repeat 0 70) [1.9e14; 1.95e14]
      1e-4 5e-7 2.2e-7 0 = Ok ([1.9e14; 1.95e14], s)
    /\ length s = 2%nat
    /\ Forall reciprocal_reflectionless s.
Proof.
  destruct (waveguide_models_reciprocal_reflectionless (repeat 0 70)
              Fixture.coeffs [1.9e14; 1.95e14] 1e-4 5e-7 2.2e-7 0)
    as (Hann & _ & Htotal).
  destruct (Htotal eq_refl ltac:(discriminate)) as [s Hs].
  exists s. split; [exact Hs|].
  destruct (Hann _ _ Hs) as (_ & Hlen & Hrec).
  split; [exact Hlen | exact Hrec].
Defined.

(** * Further properties of the waveguide models *)

Lemma combine_map_same {A B C} (g : A -> B) (h : A -> C) (l : list A) :
  combine (map g l) (map h l) = map (fun x => (g x, h x)) l.
Proof. induction l as [|x l IH]; simpl; [reflexivity | now rewrite IH]. Qed.

(** The Lumerical model in closed form: one [through] matrix per
    frequency, each from that frequency alone. *)
Lemma Lumerical_1550_closed_form (coeffs : Lumerical_1550.Coeffs)
  (frequency : list R) (L w t d : R) :
  Lumerical_1550.get_s_parameters coeffs frequency L w t d
  = Ok (frequency,
        map (fun f => through (transmission (Lumerical_K coeffs f) L))
            frequency).
Proof.
  unfold Lumerical_1550.get_s_parameters.
  set (K := map _ (map _ frequency)).
  assert (HK : length K = length frequency)
    by (unfold K; now rewrite !length_map).
  rewrite <- HK, build_all. unfold K. rewrite !map_map. reflexivity.
Qed.

(** The ANN model in closed form, where it returns. *)
Lemma ANN_WG_closed_form (coeffs frequency : list R) (L w t d : R) :
  length coeffs = 70%nat -> length frequency <> 1%nat ->
  ANN_WG.get_s_parameters coeffs frequency L w t d
  = Ok (frequency,
        map (fun f => through (transmission (ANN_K coeffs w t f) (L + L * d)))
            frequency).
Proof.
  intros Hc Hf. unfold ANN_WG.get_s_parameters, ANN_WG.straightWaveguide.
  rewrite length_map.
  apply Nat.eqb_neq in Hf. rewrite Hf.
  rewrite cartesian_product_scalars.
  unfold np.matmul. rewrite combos_length, Hc. simpl rbind.
  rewrite !map_map.
  rewrite (combine_map_same
             (fun x => np.dot (ANN_WG.poly_row [c0 / x; w; t; 90]) coeffs)
             (fun x => c0 / x) frequency).
  rewrite map_map. cbn [fst snd].
  rewrite length_map.
  match goal with
  | |- context [build_entry ?K _] =>
      rewrite <- (length_map
                    (fun x => 2 * PI * (np.dot (ANN_WG.poly_row
                                                  [c0 / x; w; t; 90]) coeffs
                                        / (c0 / x))) frequency);
      rewrite (build_all K)
  end.
  rewrite map_map. reflexivity.
Qed.

(** X1.  When the ANN model returns and when it raises: [TypeError] for a
    frequency array of exactly one element, otherwise [ValueError] unless
    the coefficient file holds the 70 coefficients of the polynomial,
    otherwise one matrix per frequency. *)
Theorem ANN_WG_outcome (coeffs frequency : list R)
  (L width thickness delta_length : R) :
  (length frequency = 1%nat ->
   ANN_WG.get_s_parameters coeffs frequency L width thickness delta_length
   = Raise (TypeError "len() of unsized object"))
  /\ (length frequency <> 1%nat -> length coeffs <> 70%nat ->
      ANN_WG.get_s_parameters coeffs frequency L width thickness delta_length
      = Raise (ValueError "matmul: mismatch in core dimension"))
  /\ (length frequency <> 1%nat -> length coeffs = 70%nat ->
      exists s,
        ANN_WG.get_s_parameters coeffs frequency L width thickness
          delta_length = Ok (frequency, s)
        /\ length s = length frequency).
Proof.
  split; [|split].
  - intros Hf. unfold ANN_WG.get_s_parameters, ANN_WG.straightWaveguide.
    rewrite length_map, Hf. reflexivity.
  - intros Hf Hc. unfold ANN_WG.get_s_parameters, ANN_WG.straightWaveguide.
    rewrite length_map. apply Nat.eqb_neq in Hf. rewrite Hf.
    unfold np.matmul. rewrite combos_length.
    assert (E : Nat.eqb 70 (length coeffs) = false)
      by (apply Nat.eqb_neq; congruence).
    rewrite E. reflexivity.
  - intros Hf Hc. rewrite (ANN_WG_closed_form _ _ _ _ _ _ Hc Hf).
    eexists. split; [reflexivity|]. now rewrite length_map.
Qed.

(** X2.  The Lumerical model treats each frequency on its own: on a
    concatenated frequency array it returns the concatenation of what it
    returns on the parts, and on the empty array it returns no matrix. *)
Theorem Lumerical_1550_concatenation (coeffs : Lumerical_1550.Coeffs)
  (f1 f2 : list R) (L width thickness delta_length : R) :
  Lumerical_1550.get_s_parameters coeffs [] L width thickness delta_length
  = Ok ([], [])
  /\ exists s1 s2,
      Lumerical_1550.get_s_parameters coeffs f1 L width thickness
        delta_length = Ok (f1, s1)
      /\ Lumerical_1550.get_s_parameters coeffs f2 L width thickness
           delta_length = Ok (f2, s2)
      /\ Lumerical_1550.get_s_parameters coeffs (f1 ++ f2) L width thickness
           delta_length = Ok (f1 ++ f2, s1 ++ s2).
Proof.
  split; [reflexivity|].
  do 2 eexists. rewrite !Lumerical_1550_closed_form.
  split; [reflexivity|]. split; [reflexivity|]. now rewrite map_app.
Qed.

(** X3.  The same for the ANN model, where it returns on the parts and on
    the whole (no array of exactly one element, 70 coefficients). *)
Theorem ANN_WG_concatenation (coeffs f1 f2 : list R)
  (L width thickness delta_length : R) :
  length coeffs = 70%nat ->
  length f1 <> 1%nat -> length f2 <> 1%nat -> length (f1 ++ f2) <> 1%nat ->
  exists s1 s2,
    ANN_WG.get_s_parameters coeffs f1 L width thickness delta_length
    = Ok (f1, s1)
    /\ ANN_WG.get_s_parameters coeffs f2 L width thickness delta_length
       = Ok (f2, s2)
    /\ ANN_WG.get_s_parameters coeffs (f1 ++ f2) L width thickness
         delta_length = Ok (f1 ++ f2, s1 ++ s2).
Proof.
  intros Hc H1 H2 H12. do 2 eexists.
  rewrite !ANN_WG_closed_form by assumption.
  split; [reflexivity|]. split; [reflexivity|]. now rewrite map_app.
Qed.

Lemma ANN_WG_concatenation_witness :
  exists s1 s2,
    ANN_WG.get_s_parameters (repeat 0 70) [1.9e14; 1.95e14] 1e-4 5e-7
      2.2e-7 0 = Ok ([1.9e14; 1.95e14], s1)
    /\ ANN_WG.get_s_parameters (repeat 0 70) [] 1e-4 5e-7 2.2e-7 0
       = Ok ([], s2)
    /\ ANN_WG.get_s_parameters (repeat 0 70) ([1.9e14; 1.95e14] ++ [])
         1e-4 5e-7 2.2e-7 0
       = Ok ([1.9e14; 1.95e14] ++ [], s1 ++ s2).
Proof.
  apply (ANN_WG_concatenation (repeat 0 70) [1.9e14; 1.95e14] []);
    simpl; [reflexivity | | | ]; discriminate.
Defined.

Lemma transmission_sum (k L1 L2 : R) :
  transmission k (L1 + L2)
  = np.cmul (transmission k L1) (transmission k L2).
Proof.
  unfold transmission, np.exp, np.cmul, np.re, np.im. cbn [fst snd].
  replace (- alpha * (L1 + L2)) with (- alpha * L1 + - alpha * L2) by ring.
  replace (k * (L1 + L2)) with (k * L1 + k * L2) by ring.
  rewrite exp_plus, cos_plus, sin_plus.
  apply injective_projections; cbn [fst snd]; ring.
Qed.

Lemma cascade_of_maps (K : R -> R) (frequency : list R) (L1 L2 : R) :
  cascade_of
    (map (fun f => through (transmission (K f) L1)) frequency)
    (map (fun f => through (transmission (K f) L2)) frequency)
    (map (fun f => through (transmission (K f) (L1 + L2))) frequency).
Proof.
  intros x. destruct (Nat.lt_ge_cases x (length frequency)) as [Hlt|Hge].
  - rewrite !(nth_indep _ [] (through np.czero))
      by (now rewrite length_map).
    assert (E : forall L,
               nth x (map (fun f => through (transmission (K f) L)) frequency)
                 (through np.czero)
               = through (transmission (K (nth x frequency 0)) L)).
    { intros L.
      rewrite (nth_indep _ (through np.czero)
                 (through (transmission (K 0) L)))
        by (now rewrite length_map).
      apply (map_nth (fun f => through (transmission (K f) L))). }
    rewrite !E. unfold entry, through. simpl.
    split; apply transmission_sum.
  - rewrite !nth_overflow by (now rewrite length_map).
    unfold entry, np.cmul, np.czero, np.re, np.im. simpl.
    split; apply injective_projections; simpl; ring.
Qed.

(** X4.  Lengths add as transmissions multiply: at every frequency the
    transmission entries for a waveguide of length [L1 + L2] are the
    products of those for the lengths [L1] and [L2] (for the ANN model with
    the same relative deviation, where it returns). *)
Theorem waveguide_series_composition (ann_coeffs : list R)
  (lum_coeffs : Lumerical_1550.Coeffs) (frequency : list R)
  (L1 L2 width thickness delta_length : R) :
  (exists s1 s2 s12,
      Lumerical_1550.get_s_parameters lum_coeffs frequency L1 width
        thickness delta_length = Ok (frequency, s1)
      /\ Lumerical_1550.get_s_parameters lum_coeffs frequency L2 width
           thickness delta_length = Ok (frequency, s2)
      /\ Lumerical_1550.get_s_parameters lum_coeffs frequency (L1 + L2)
           width thickness delta_length = Ok (frequency, s12)
      /\ cascade_of s1 s2 s12)
  /\ (length ann_coeffs = 70%nat -> length frequency <> 1%nat ->
      exists s1 s2 s12,
        ANN_WG.get_s_parameters ann_coeffs frequency L1 width thickness
          delta_length = Ok (frequency, s1)
        /\ ANN_WG.get_s_parameters ann_coeffs frequency L2 width thickness
             delta_length = Ok (frequency, s2)
        /\ ANN_WG.get_s_parameters ann_coeffs frequency (L1 + L2) width
             thickness delta_length = Ok (frequency, s12)
        /\ cascade_of s1 s2 s12).
Proof.
  split.
  - do 3 eexists. rewrite !Lumerical_1550_closed_form.
    repeat (split; [reflexivity|]). apply cascade_of_maps.
  - intros Hc Hf. do 3 eexists.
    rewrite !ANN_WG_closed_form by assumption.
    repeat (split; [reflexivity|]).
    replace (L1 + L2 + (L1 + L2) * delta_length)
      with ((L1 + L1 * delta_length) + (L2 + L2 * delta_length)) by ring.
    apply cascade_of_maps.
Qed.

Lemma transmission_zero (k : R) : transmission k 0 = (1, 0).
Proof.
  unfold transmission, np.exp, np.re, np.im. cbn [fst snd].
  rewrite !Rmult_0_r, exp_0, cos_0, sin_0.
  apply injective_projections; cbn [fst snd]; ring.
Qed.

(** X5.  A waveguide of length zero transmits everything unchanged: at
    every frequency the matrix is [[0, 1], [1, 0]].  For the ANN model this
    holds where it returns, for a zero length and also for a relative
    deviation of -1, which makes the perturbed length zero. *)
Theorem waveguide_of_length_zero (ann_coeffs : list R)
  (lum_coeffs : Lumerical_1550.Coeffs) (frequency : list R)
  (L width thickness delta_length : R) :
  Lumerical_1550.get_s_parameters lum_coeffs frequency 0 width thickness
    delta_length
  = Ok (frequency, repeat (through (1, 0)) (length frequency))
  /\ (length ann_coeffs = 70%nat -> length frequency <> 1%nat ->
      L = 0 \/ delta_length = -1 ->
      ANN_WG.get_s_parameters ann_coeffs frequency L width thickness
        delta_length
      = Ok (frequency, repeat (through (1, 0)) (length frequency))).
Proof.
  split.
  - rewrite Lumerical_1550_closed_form, <- map_const.
    do 2 f_equal. apply map_ext. intros f. now rewrite transmission_zero.
  - intros Hc Hf HL. rewrite (ANN_WG_closed_form _ _ _ _ _ _ Hc Hf).
    assert (E : L + L * delta_length = 0)
      by (destruct HL as [-> | ->]; ring).
    rewrite E, <- map_const.
    do 2 f_equal. apply map_ext. intros f. now rewrite transmission_zero.
Qed.

Lemma loss_of_through (k L : R) :
  loss_dB (through (transmission k L)) (- TE_loss * L).
Proof.
  assert (Hln : ln 10 <> 0) by (apply ln_neq_0; lra).
  unfold loss_dB, entry, through. simpl.
  rewrite abs_transmission. unfold np.log10. rewrite ln_exp, alpha_value.
  unfold TE_loss. split; field; exact Hln.
Qed.

(** X6.  The loss of both models is 700 dB per metre: for every matrix
    returned, [20 log10] of the magnitude of each transmission entry is
    [-700] times the length (the perturbed length for the ANN model). *)
Theorem waveguide_loss_per_metre (ann_coeffs : list R)
  (lum_coeffs : Lumerical_1550.Coeffs) (frequency : list R)
  (L width thickness delta_length : R) :
  (exists s,
      Lumerical_1550.get_s_parameters lum_coeffs frequency L width thickness
        delta_length = Ok (frequency, s)
      /\ Forall (fun m => loss_dB m (- 700 * L)) s)
  /\ (forall f s,
        ANN_WG.get_s_parameters ann_coeffs frequency L width thickness
          delta_length = Ok (f, s) ->
        Forall (fun m => loss_dB m (- 700 * (L + L * delta_length))) s).
Proof.
  split.
  - rewrite Lumerical_1550_closed_form. eexists. split; [reflexivity|].
    apply Forall_map_through. intros k. apply loss_of_through.
  - intros f s H. apply ANN_WG_returns in H as (_ & K & _ & ->).
    apply Forall_map_through. intros k. apply loss_of_through.
Qed.

Lemma cartesian_product_In (arrays : list (list R)) :
  forall row,
    In row (ANN_WG.cartesian_product arrays)
    <-> Forall2 (fun x a => In x a) row arrays.
Proof.
  induction arrays as [|a rest IH]; intros row; simpl.
  - split.
    + intros [<-|[]]. constructor.
    + intros Hr. inversion Hr. now left.
  - rewrite in_flat_map. split.
    + intros (x & Hx & Hrow). apply in_map_iff in Hrow as (r & <- & Hr).
      constructor; [exact Hx | now apply IH].
    + intros Hr. inversion Hr as [|x a' r rest' Hx Hrest]; subst.
      exists x. split; [exact Hx|]. apply in_map. now apply IH.
Qed.

Lemma cartesian_product_length (arrays : list (list R)) :
  length (ANN_WG.cartesian_product arrays) = lengths_product arrays.
Proof.
  induction arrays as [|a rest IH]; simpl; [reflexivity|].
  rewrite <- IH. clear IH.
  induction a as [|x a IHa]; simpl; [reflexivity|].
  now rewrite length_app, length_map, IHa.
Qed.

(** X7.  [cartesian_product] of at least one array returns exactly the
    combinations of one element per array: as many rows as the product of
    the lengths, and a row is returned if and only if its i-th element is
    an element of the i-th array, for every i. *)
Theorem cartesian_product_combinations (arrays : list (list R)) :
  arrays <> [] ->
  length (ANN_WG.cartesian_product arrays) = lengths_product arrays
  /\ forall row,
      In row (ANN_WG.cartesian_product arrays)
      <-> Forall2 (fun x a => In x a) row arrays.
Proof.
  intros _. split.
  - apply cartesian_product_length.
  - apply cartesian_product_In.
Qed.

Lemma cartesian_product_combinations_witness :
  length (ANN_WG.cartesian_product [[1; 2; 3]; [4; 5]]) = 6%nat
  /\ forall row,
      In row (ANN_WG.cartesian_product [[1; 2; 3]; [4; 5]])
      <-> Forall2 (fun x a => In x a) row [[1; 2; 3]; [4; 5]].
Proof.
  apply (cartesian_product_combinations [[1; 2; 3]; [4; 5]]).
  discriminate.
Defined.

(** X8.  The polynomial of [straightWaveguide] has 70 terms, all distinct;
    each is a product of at most 4 input columns, listed in non-decreasing
    order, and every column index is below 4, so that no term reads outside
    the four input columns. *)
Theorem combos_are_monomials :
  length ANN_WG.combos = 70%nat
  /\ NoDup ANN_WG.combos
  /\ Forall (fun c => (length c <= 4)%nat
                      /\ Forall (fun k => (k < 4)%nat) c
                      /\ nondecreasing c = true) ANN_WG.combos.
Proof.
  split; [reflexivity|]. split.
  - assert (E : nodup (list_eq_dec Nat.eq_dec) ANN_WG.combos = ANN_WG.combos)
      by (vm_compute; reflexivity).
    rewrite <- E. apply NoDup_nodup.
  - apply Forall_forall. intros c Hc.
    assert (Hb : forallb (fun c => Nat.leb (length c) 4
                                   && forallb (fun k => Nat.ltb k 4) c
                                   && nondecreasing c) ANN_WG.combos = true)
      by (vm_compute; reflexivity).
    rewrite forallb_forall in Hb. specialize (Hb c Hc).
    apply andb_prop in Hb as [Hb Hn]. apply andb_prop in Hb as [Hl Hk].
    split; [now apply Nat.leb_le|]. split; [|exact Hn].
    apply Forall_forall. intros k Hin.
    rewrite forallb_forall in Hk. now apply Nat.ltb_lt, Hk.
Qed.

(** * Further properties of the simulators *)

Lemma getitem_map {A B} (F : A -> B) (l : list A) (i : nat) :
  np.getitem (map F l) i
  = match np.getitem l i with
    | Ok v => Ok (F v)
    | Raise e => Raise e
    end.
Proof.
  unfold np.getitem. rewrite nth_error_map.
  destruct (nth_error l i); reflexivity.
Qed.

Lemma slice_compose {A} (h : R -> R) (g : A -> R) (a : list (list (list A)))
  (i j : nat) :
  slice (map3 (fun z => h (g z)) a) i j
  = match slice (map3 g a) i j with
    | Ok column => Ok (map h column)
    | Raise e => Raise e
    end.
Proof.
  induction a as [|m a IH]; [reflexivity|].
  change (map3 (fun z => h (g z)) (m :: a))
    with (map (map (fun z => h (g z))) m :: map3 (fun z => h (g z)) a).
  change (map3 g (m :: a)) with (map (map g) m :: map3 g a).
  cbn [slice]. rewrite !getitem_map.
  destruct (np.getitem m i) as [row|e]; [|reflexivity]. cbn [rbind].
  rewrite !getitem_map.
  destruct (np.getitem row j) as [v|e]; [|reflexivity]. cbn [rbind].
  rewrite IH. destruct (slice (map3 g a) i j); reflexivity.
Qed.

Lemma slice_length {A} (g : A -> R) (a : list (list (list A))) (i j : nat)
  (column : list R) :
  slice (map3 g a) i j = Ok column -> length column = length a.
Proof.
  revert column. induction a as [|m a IH]; intros column.
  - intros E. injection E as <-. reflexivity.
  - change (map3 g (m :: a)) with (map (map g) m :: map3 g a).
    cbn [slice]. intros E.
    apply rbind_ok_inv in E as (row & _ & E).
    apply rbind_ok_inv in E as (v & _ & E).
    apply rbind_ok_inv in E as (vs & Hvs & E).
    injection E as <-. simpl. now rewrite (IH vs Hvs).
Qed.

Section MoreSimulatorFacts.

Context {Mdl Rng : Type} `{Protocol Mdl Rng}.

Lemma extract_dB (self : Simulator) (f : option ndarray) (sub : Subcircuit)
  (m : SParametersMethod) :
  extract self true f sub m
  = match extract self false f sub m with
    | Ok (f', column) => Ok (f', map np.log10 column)
    | Raise e => Raise e
    end.
Proof.
  unfold extract.
  destruct (getattr sub m f) as [s_params|e]; [|reflexivity]. cbn [rbind].
  destruct (PinList_index _ (_connection (pins_input self)));
    [|reflexivity]. cbn [rbind].
  destruct (PinList_index _ (_connection (pins_output self)));
    [|reflexivity]. cbn [rbind].
  change (power_ratio true) with (fun z => np.log10 (power_ratio false z)).
  rewrite (slice_compose np.log10 (power_ratio false)).
  destruct (slice _ _ _); reflexivity.
Qed.

(** X9.  Asking for [dB] changes nothing but the ratios: the call raises
    the same exception or returns the same frequencies, makes the same calls,
    and each returned value is the base-10 logarithm of the ratio returned
    without [dB]. *)
Theorem simulate_dB_is_log10_of_linear (self : Simulator) (fr : R)
  (fs : option ndarray) (m : SParametersMethod) (w : World Mdl Rng) :
  Simulator_simulate self true fr fs m w
  = (match fst (Simulator_simulate self false fr fs m w) with
     | Ok (f, column) => Ok (f, map np.log10 column)
     | Raise e => Raise e
     end,
     snd (Simulator_simulate self false fr fs m w)).
Proof.
  destruct (connected_dec self) as [Hc|Hu].
  - rewrite !(simulate_connected _ _ _ _ _ _ Hc).
    destruct (to_subcircuit (circuit w) false); [|reflexivity].
    cbn [fst snd]. now rewrite extract_dB.
  - now rewrite !(simulate_unconnected _ _ _ _ _ _ Hu).
Qed.

(** X10.  Without [dB] no returned ratio is negative, and there is one
    ratio per matrix of the stack the reduction returned. *)
Theorem simulate_ratios_nonnegative (self : Simulator) (fr : R)
  (fs : option ndarray) (m : SParametersMethod) (w w' : World Mdl Rng)
  (f : option ndarray) (column : list R) :
  Simulator_simulate self false fr fs m w = (Ok (f, column), w') ->
  Forall (fun r => 0 <= r) column
  /\ exists sub s_params,
      to_subcircuit (circuit w) false = Ok sub
      /\ getattr sub m f = Ok s_params
      /\ length column = length s_params.
Proof.
  intros Hrun.
  destruct (connected_dec self) as [Hc|Hu].
  2:{ rewrite (simulate_unconnected _ _ _ _ _ _ Hu) in Hrun. discriminate. }
  rewrite (simulate_connected _ _ _ _ _ _ Hc) in Hrun.
  destruct (to_subcircuit (circuit w) false) as [sub|e]; [|discriminate].
  injection Hrun as Hex _. unfold extract in Hex.
  apply rbind_ok_inv in Hex as (s_params & Hs & Hex).
  apply rbind_ok_inv in Hex as (input & _ & Hex).
  apply rbind_ok_inv in Hex as (output & _ & Hex).
  apply rbind_ok_inv in Hex as (col & Hcol & Hex).
  injection Hex as <- <-. split.
  - apply (slice_map3 _ np.czero) in Hcol. rewrite Hcol.
    apply Forall_forall. intros r Hr.
    apply in_map_iff in Hr as (mat & <- & _).
    unfold power_ratio. apply pow2_ge_0.
  - exists sub, s_params. repeat split; auto.
    now apply slice_length in Hcol.
Qed.

(** X11.  With [runs] zero or negative the loop body never runs: the
    simulation returns the empty list whatever the keyword arguments and
    the connections are, and nothing is reduced or redrawn. *)
Theorem monte_carlo_without_runs (self : SweepSimulator) (runs : Z)
  (kwargs : Kwargs) (w : World Mdl Rng) :
  (runs <= 0)%Z ->
  MonteCarloSweepSimulator_simulate self runs kwargs w = (Ok [], w).
Proof.
  intros Hr. unfold MonteCarloSweepSimulator_simulate.
  replace (Z.to_nat runs) with 0%nat by lia. reflexivity.
Qed.

(** X14.  A Monte Carlo simulation of at least one run that is passed
    [s_parameters_method] or [freqs] itself raises [TypeError] at the first
    trial, because the simulators add these keywords to the call; nothing
    has been reduced or redrawn. *)
Theorem monte_carlo_rejects_duplicate_keywords (self : SweepSimulator)
  (runs : Z) (kwargs : Kwargs) (w : World Mdl Rng) :
  (1 <= runs)%Z ->
  kw_s_parameters_method kwargs <> None \/ kw_freqs kwargs <> None ->
  exists msg,
    MonteCarloSweepSimulator_simulate self runs kwargs w
    = (Raise (TypeError msg), w).
Proof.
  intros Hr Hk. unfold MonteCarloSweepSimulator_simulate.
  replace (Z.to_nat runs) with (S (Z.to_nat runs - 1)) by lia.
  unfold range. cbn [seq trials]. unfold bind at 1.
  rewrite trial_unfold.
  destruct (kw_s_parameters_method kwargs) as [m|] eqn:Em.
  - eexists. reflexivity.
  - destruct Hk as [Hk|Hk]; [congruence|].
    rewrite sweep_unfold. cbn [kw_freqs].
    destruct (kw_freqs kwargs); [|congruence].
    eexists. reflexivity.
Qed.

(** X17.  A nonzero [freq] among the keyword arguments of a sweep replaces
    the grid: the outcome is the same for every grid, and when the call
    returns, it returns the zero-dimensional [freq], converted to a
    wavelength in wavelength mode. *)
Theorem sweep_freq_replaces_grid (self : SweepSimulator) (kwargs : Kwargs)
  (f : R) (w : World Mdl Rng) :
  kw_freq kwargs = Some f -> f <> 0 ->
  (forall grid,
      SweepSimulator_simulate (with_grid self grid) kwargs w
      = SweepSimulator_simulate self kwargs w)
  /\ forall out ratios w',
      SweepSimulator_simulate self kwargs w = (Ok (out, ratios), w') ->
      out = match mode self with
            | wl => Some (Scalar0 (freq2wl f))
            | freq => Some (Scalar0 f)
            end.
Proof.
  intros Hf Hn. split.
  - intros grid. rewrite !sweep_unfold.
    destruct (kw_freqs kwargs); [reflexivity|].
    unfold Simulator_simulate_kw, with_freqs, with_grid. cbn.
    rewrite Hf. cbn [default]. unfold Simulator_simulate.
    rewrite (truthy_nonzero f Hn). reflexivity.
  - intros out ratios w' Hrun.
    apply sweep_ok_inv in Hrun as (_ & _ & column & _ & Hres).
    rewrite Hf in Hres. cbn [default] in Hres.
    rewrite (truthy_nonzero f Hn) in Hres. unfold sweep_result in Hres.
    destruct (mode self); cbn in Hres; now injection Hres as <- _.
Qed.

Lemma trial_frame (self : SweepSimulator) kwargs i (w : World Mdl Rng) :
  exists events, snd (trial self kwargs i w) = add_events w events.
Proof.
  rewrite trial_unfold. destruct (kw_s_parameters_method kwargs).
  - exists []. simpl. now rewrite add_events_nil.
  - apply sweep_frame.
Qed.

(** One pass of redrawing, seen from the world before the trial that
    precedes it. *)
Lemma after_rounds_shift (w w1 : World Mdl Rng) (k : nat) :
  circuit w1 = circuit w -> rng w1 = rng w ->
  after_rounds k
    (fst (regenerate_round (circuit w1) (rng w1)))
    (snd (regenerate_round (circuit w1) (rng w1)))
  = after_rounds (S k) (circuit w) (rng w).
Proof.
  intros -> ->. simpl.
  now destruct (regenerate_round (circuit w) (rng w)).
Qed.

Lemma trials_raise (self : SweepSimulator) (kwargs : Kwargs)
  (indices : list nat) :
  forall acc (w w' : World Mdl Rng) e,
    trials self kwargs indices acc w = (Raise e, w') ->
    exists k i,
      nth_error indices k = Some i
      /\ fst (trial self kwargs i (regenerated k w)) = Raise e
      /\ (forall j ij,
            (j < k)%nat -> nth_error indices j = Some ij ->
            exists r, fst (trial self kwargs ij (regenerated j w)) = Ok r)
      /\ (circuit w', rng w') = after_rounds k (circuit w) (rng w).
Proof.
  induction indices as [|i rest IH]; intros acc w w' e Hrun.
  - discriminate.
  - cbn [trials] in Hrun. unfold bind at 1 in Hrun.
    destruct (trial self kwargs i w) as [[r|e0] w1] eqn:Ht.
    + unfold bind at 1 in Hrun. rewrite regenerate_all_spec in Hrun.
      destruct (trial_ok_inv _ _ _ _ _ _ Ht) as [_ Hw1].
      assert (Hc1 : circuit w1 = circuit w) by now rewrite Hw1.
      assert (Hg1 : rng w1 = rng w) by now rewrite Hw1.
      apply IH in Hrun as (k & i' & Hk & Hfail & Hbefore & Hstate).
      cbn [circuit rng] in Hstate.
      rewrite (after_rounds_shift w w1 k Hc1 Hg1) in Hstate.
      assert (Hreg : forall j i0,
                 fst (trial self kwargs i0
                        (regenerated j
                           {| circuit :=
                                fst (regenerate_round (circuit w1) (rng w1));
                              rng :=
                                snd (regenerate_round (circuit w1) (rng w1));
                              trace := trace w1
                                ++ regenerate_events (length (circuit w1)) |}))
                 = fst (trial self kwargs i0 (regenerated (S j) w))).
      { intros j i0. apply trial_indep. unfold regenerated.
        cbn [circuit rng]. now rewrite (after_rounds_shift w w1 j Hc1 Hg1). }
      exists (S k), i'. split; [exact Hk|]. split.
      * now rewrite <- Hreg.
      * split; [|exact Hstate].
        intros [|j] ij Hj Hnth.
        -- injection Hnth as <-. exists r.
           now rewrite regenerated_0, Ht.
        -- destruct (Hbefore j ij ltac:(lia) Hnth) as (r' & Hr').
           exists r'. now rewrite <- Hreg.
    + injection Hrun as <- <-.
      destruct (trial_frame self kwargs i w) as (events & Hw1).
      rewrite Ht in Hw1. cbn [snd] in Hw1.
      exists 0%nat, i. split; [reflexivity|]. split.
      * now rewrite regenerated_0, Ht.
      * split; [intros j ij Hj; lia|].
        rewrite Hw1. reflexivity.
Qed.

(** X12.  When a Monte Carlo simulation raises, the exception is that of
    the first trial [k] that raises: every earlier trial had returned, the
    results gathered so far are lost, and the components and the generator
    are left as the [k] passes of redrawing before that trial made them. *)
Theorem monte_carlo_stops_at_first_failure (self : SweepSimulator)
  (runs : Z) (kwargs : Kwargs) (w w' : World Mdl Rng) (e : PyError) :
  MonteCarloSweepSimulator_simulate self runs kwargs w = (Raise e, w') ->
  exists k,
    (k < Z.to_nat runs)%nat
    /\ fst (trial self kwargs k (regenerated k w)) = Raise e
    /\ (forall j, (j < k)%nat ->
                  exists r, fst (trial self kwargs j (regenerated j w)) = Ok r)
    /\ (circuit w', rng w') = after_rounds k (circuit w) (rng w).
Proof.
  unfold MonteCarloSweepSimulator_simulate. intros Hrun.
  apply trials_raise in Hrun as (k & i & Hk & Hfail & Hbefore & Hstate).
  apply nth_error_range in Hk as [-> Hlt].
  exists k. repeat split; auto.
  intros j Hj. apply (Hbefore j j Hj). apply nth_error_range. lia.
Qed.

Lemma trial_ok_axis (self : SweepSimulator) kwargs i (w : World Mdl Rng) r :
  fst (trial self kwargs i w) = Ok r -> fst r = sweep_axis self kwargs.
Proof.
  rewrite trial_unfold.
  destruct (kw_s_parameters_method kwargs); [discriminate|].
  destruct (SweepSimulator_simulate _ _ w) as [res w1] eqn:Hrun.
  cbn [fst]. intros ->. destruct r as [out ratios].
  apply sweep_ok_inv in Hrun as (_ & _ & column & _ & Hres).
  cbn [kw_freq] in Hres. unfold sweep_axis, sweep_result in *.
  destruct (mode self), (truthy (default 0 (kw_freq kwargs)));
    cbn in Hres; now injection Hres as <- _.
Qed.

(** X13.  All results of a Monte Carlo simulation share their first
    component: every trial returns the same array of frequencies (of
    wavelengths in wavelength mode), and there are [runs] results. *)
Theorem monte_carlo_results_share_axis (self : SweepSimulator) (runs : Z)
  (kwargs : Kwargs) (w w' : World Mdl Rng)
  (rs : list (option ndarray * list R)) :
  MonteCarloSweepSimulator_simulate self runs kwargs w = (Ok rs, w') ->
  length rs = Z.to_nat runs
  /\ Forall (fun r => fst r = sweep_axis self kwargs) rs.
Proof.
  intros Hrun.
  apply monte_carlo_ok in Hrun as (Hlen & _ & _ & _ & Hres).
  split; [exact Hlen|].
  apply Forall_forall. intros r Hin.
  apply In_nth_error in Hin as (k & Hk).
  assert (Hlt : (k < Z.to_nat runs)%nat).
  { rewrite <- Hlen. apply nth_error_Some. now rewrite Hk. }
  destruct (Hres k Hlt) as (r' & Hr' & Hout).
  rewrite Hk in Hr'. injection Hr' as <-.
  exact (trial_ok_axis _ _ _ _ _ Hout).
Qed.

End MoreSimulatorFacts.

(** * Further properties of the sweep *)

Lemma uniform_grid_nth (a b : R) (n i : nat) :
  (i < n)%nat ->
  nth i (uniform_grid a b n) 0 = a + INR i * ((b - a) / INR (n - 1)).
Proof.
  intros Hi. unfold uniform_grid, range.
  rewrite (nth_indep _ 0 (a + INR 0 * ((b - a) / INR (n - 1))))
    by (now rewrite length_map, length_seq).
  rewrite (map_nth (fun i => a + INR i * ((b - a) / INR (n - 1)))).
  now rewrite seq_nth.
Qed.

Lemma uniform_grid_first (a b : R) (n : nat) :
  (1 <= n)%nat -> nth 0 (uniform_grid a b n) 0 = a.
Proof. intros Hn. rewrite uniform_grid_nth by lia. simpl. ring. Qed.

Lemma INR_pred_pos (n : nat) : (2 <= n)%nat -> 0 < INR (n - 1).
Proof. intros Hn. apply lt_0_INR. lia. Qed.

Lemma uniform_grid_last (a b : R) (n : nat) :
  (2 <= n)%nat -> nth (n - 1) (uniform_grid a b n) 0 = b.
Proof.
  intros Hn. rewrite uniform_grid_nth by lia.
  pose proof (INR_pred_pos n Hn). field. lra.
Qed.

Lemma ascending_map_seq (g : nat -> R) (n : nat) :
  forall a,
    (forall i, (a <= i)%nat -> (S i < a + n)%nat -> g i < g (S i)) ->
    ascending (map g (seq a n)).
Proof.
  induction n as [|n IH]; intros a Hg; [exact I|].
  destruct n as [|n]; [exact I|].
  change (g a < g (S a) /\ ascending (map g (seq (S a) (S n)))).
  split.
  - apply Hg; lia.
  - apply IH. intros i Hi Hlt. apply Hg; lia.
Qed.

(** A grid from [a] up to [b] is ascending. *)
Lemma uniform_grid_ascending (a b : R) (n : nat) :
  a < b -> ascending (uniform_grid a b n).
Proof.
  intros Hab. unfold uniform_grid, range. apply ascending_map_seq.
  intros i _ Hi. rewrite S_INR.
  assert (Hn : 0 < INR (n - 1)) by (apply INR_pred_pos; lia).
  assert (Hstep : 0 < (b - a) / INR (n - 1))
    by (apply Rdiv_lt_0_compat; lra).
  lra.
Qed.

(** The points of a grid from [a] down to [b > 0] are positive. *)
Lemma uniform_grid_point_pos (a b : R) (n i : nat) :
  0 < b -> b < a -> (2 <= n)%nat -> (i < n)%nat ->
  0 < a + INR i * ((b - a) / INR (n - 1)).
Proof.
  intros Hb Hab Hn Hi.
  assert (HN : 0 < INR (n - 1)) by now apply INR_pred_pos.
  assert (HI : INR i <= INR (n - 1)) by (apply le_INR; lia).
  assert (H0 : 0 <= INR i) by apply pos_INR.
  replace (a + INR i * ((b - a) / INR (n - 1)))
    with (b + (a - b) * ((INR (n - 1) - INR i) / INR (n - 1)))
    by (field; lra).
  assert (Hq : 0 <= (INR (n - 1) - INR i) / INR (n - 1)).
  { apply Rmult_le_pos; [lra|]. left. now apply Rinv_0_lt_compat. }
  nra.
Qed.

Lemma freq2wl_decreasing (x y : R) :
  0 < y -> y < x -> freq2wl x < freq2wl y.
Proof.
  intros Hy Hxy. unfold freq2wl, SPEED_OF_LIGHT, Rdiv.
  apply Rmult_lt_compat_l; [lra|].
  apply Rinv_lt_contravar; [nra | exact Hxy].
Qed.

(** The wavelengths of a grid from [a] down to [b > 0] are ascending. *)
Lemma wavelengths_ascending (a b : R) (n : nat) :
  0 < b -> b < a -> ascending (map freq2wl (uniform_grid a b n)).
Proof.
  intros Hb Hab. unfold uniform_grid, range. rewrite map_map.
  apply ascending_map_seq. intros i _ Hi.
  assert (Hn : (2 <= n)%nat) by lia.
  apply freq2wl_decreasing.
  - apply uniform_grid_point_pos; auto; lia.
  - rewrite S_INR.
    assert (HN : 0 < INR (n - 1)) by now apply INR_pred_pos.
    assert (Hstep : (b - a) / INR (n - 1) < 0).
    { unfold Rdiv. apply Rmult_neg_pos; [lra|]. now apply Rinv_0_lt_compat. }
    lra.
Qed.

Lemma freq2wl_wl2freq (x : R) : x <> 0 -> freq2wl (wl2freq x) = x.
Proof.
  intros Hx. unfold freq2wl, wl2freq, SPEED_OF_LIGHT. field. exact Hx.
Qed.

Section MoreSweepFacts.

Context {Mdl Rng : Type} `{Protocol Mdl Rng}.

(** X16.  A sweep built with frequency bounds [1 <= start < stop] and at
    least two points, connected and run without a [freq] argument, returns
    when it returns its own grid: [num] ascending frequencies from [start]
    to [stop], with the ratios exactly as [Simulator.simulate] returned them
    for that grid, in the same order. *)
Theorem sweep_frequency_mode_returns_grid (start stop : R) (num : Z)
  (sim : SweepSimulator) (input output : PinId) (kwargs : Kwargs)
  (w w' : World Mdl Rng) (out : option ndarray) (ratios : list R) :
  1 <= start -> start < stop -> (2 <= num)%Z ->
  SweepSimulator___init__ start stop num = Ok sim ->
  kw_freq kwargs = None ->
  SweepSimulator_simulate (connect sim input output) kwargs w
  = (Ok (out, ratios), w') ->
  out = Some (Array1 (freqs sim))
  /\ length (freqs sim) = Z.to_nat num
  /\ nth 0 (freqs sim) 0 = start
  /\ nth (Z.to_nat num - 1) (freqs sim) 0 = stop
  /\ ascending (freqs sim)
  /\ Simulator_simulate_kw (base (connect sim input output))
       (with_freqs kwargs (freqs sim)) w
     = (Ok (Some (Array1 (freqs sim)), ratios), w').
Proof.
  intros Hs Hlt Hn Hinit Hf Hrun.
  destruct (init_outcome start stop num ltac:(lia) ltac:(intros; split; lra))
    as (sim' & E & _ & _ & _ & Hfreq).
  rewrite Hinit in E. injection E as <-.
  destruct (Hfreq Hs) as [Hm Hg].
  apply sweep_ok_inv in Hrun as (_ & _ & column & Hsim & Hres).
  rewrite Hf in Hsim, Hres. cbn [default] in Hsim, Hres.
  rewrite truthy_zero in Hsim, Hres.
  cbn [mode connect] in Hres. rewrite Hm in Hres. cbn in Hres.
  injection Hres as <- <-. cbn [freqs connect] in Hsim.
  split; [reflexivity|]. rewrite Hg.
  split; [apply uniform_grid_length|].
  split; [apply uniform_grid_first; lia|].
  split; [apply uniform_grid_last; lia|].
  split; [now apply uniform_grid_ascending|].
  rewrite <- Hg. exact Hsim.
Qed.

(** X15.  A sweep built with wavelength bounds [0 < start < stop < 1] and
    at least two points, connected and run without a [freq] argument,
    returns when it returns [num] ascending wavelengths, the first of them
    [start] and the last [stop]. *)
Theorem sweep_wavelength_mode_returns_bounds (start stop : R) (num : Z)
  (sim : SweepSimulator) (input output : PinId) (kwargs : Kwargs)
  (w w' : World Mdl Rng) (out : option ndarray) (ratios : list R) :
  0 < start -> start < stop -> stop < 1 -> (2 <= num)%Z ->
  SweepSimulator___init__ start stop num = Ok sim ->
  kw_freq kwargs = None ->
  SweepSimulator_simulate (connect sim input output) kwargs w
  = (Ok (out, ratios), w') ->
  exists wavelengths,
    out = Some (Array1 wavelengths)
    /\ length wavelengths = Z.to_nat num
    /\ nth 0 wavelengths 0 = start
    /\ nth (Z.to_nat num - 1) wavelengths 0 = stop
    /\ ascending wavelengths.
Proof.
  intros H0 Hlt H1 Hn Hinit Hf Hrun.
  destruct (init_outcome start stop num ltac:(lia) ltac:(intros; split; lra))
    as (sim' & E & _ & _ & Hwl & _).
  rewrite Hinit in E. injection E as <-.
  destruct Hwl as [Hm Hg]; [lra|].
  apply sweep_wavelength_outcome in Hrun as (column & _ & -> & _);
    [|exact Hm | exact Hf].
  cbn [freqs connect]. rewrite Hg.
  fold (wl2freq start). fold (wl2freq stop).
  set (n := Z.to_nat num). assert (Hn2 : (2 <= n)%nat) by (unfold n; lia).
  assert (Hc : 0 < SPEED_OF_LIGHT) by (unfold SPEED_OF_LIGHT; lra).
  eexists. split; [reflexivity|].
  split; [now rewrite length_map, uniform_grid_length|].
  split; [|split].
  - rewrite (nth_indep _ 0 (freq2wl 0))
      by (rewrite length_map, uniform_grid_length; lia).
    rewrite map_nth, uniform_grid_first by lia.
    apply freq2wl_wl2freq. lra.
  - rewrite (nth_indep _ 0 (freq2wl 0))
      by (rewrite length_map, uniform_grid_length; lia).
    rewrite map_nth, uniform_grid_last by lia.
    apply freq2wl_wl2freq. lra.
  - apply wavelengths_ascending.
    + unfold wl2freq. apply Rdiv_lt_0_compat; lra.
    + unfold wl2freq, Rdiv. apply Rmult_lt_compat_l; [exact Hc|].
      apply Rinv_lt_contravar; [nra | exact Hlt].
Qed.

End MoreSweepFacts.

(** * The further properties on the test circuit *)

(** X10 on the test circuit. *)
Lemma simulate_ratios_nonnegative_witness :
  exists column w',
    Simulator_simulate Fixture.simulator false 0
      (Some (Array1 [1.9e14; 1.95e14])) s_parameters Fixture.world
    = (Ok (Some (Array1 [1.9e14; 1.95e14]), column), w')
    /\ Forall (fun r => 0 <= r) column.
Proof.
  destruct (fixture_simulate _ false 0 (Some (Array1 [1.9e14; 1.95e14]))
              s_parameters Fixture.world [1.9e14; 1.95e14] eq_refl)
    as (K & _ & Hrun).
  { rewrite truthy_zero. reflexivity. }
  rewrite truthy_zero in Hrun.
  do 2 eexists. split; [exact Hrun|].
  exact (proj1 (simulate_ratios_nonnegative _ _ _ _ _ _ _ _ Hrun)).
Defined.

(** X11 with a negative number of runs. *)
Lemma monte_carlo_without_runs_witness :
  MonteCarloSweepSimulator_simulate (connect Fixture.sweep 0%nat 1%nat)
    (-2) no_kwargs Fixture.world
  = (Ok [], Fixture.world).
Proof.
  apply (monte_carlo_without_runs (connect Fixture.sweep 0%nat 1%nat) (-2)).
  lia.
Defined.

Lemma fixture_unconnected_monte_carlo :
  MonteCarloSweepSimulator_simulate Fixture.sweep 3 no_kwargs Fixture.world
  = (Raise not_connected_error, Fixture.world).
Proof.
  unfold MonteCarloSweepSimulator_simulate.
  change (range (Z.to_nat 3)) with [0; 1; 2]%nat.
  cbn [trials]. unfold bind at 1. rewrite trial_unfold.
  cbn [kw_s_parameters_method no_kwargs]. rewrite sweep_unfold.
  cbn [kw_freqs]. unfold Simulator_simulate_kw.
  rewrite simulate_unconnected by (left; reflexivity). reflexivity.
Qed.

(** X12 on a simulator that was never connected: the first trial raises. *)
Lemma monte_carlo_stops_at_first_failure_witness :
  MonteCarloSweepSimulator_simulate Fixture.sweep 3 no_kwargs Fixture.world
  = (Raise not_connected_error, Fixture.world)
  /\ exists k,
      (k < Z.to_nat 3)%nat
      /\ fst (trial Fixture.sweep no_kwargs k (regenerated k Fixture.world))
         = Raise not_connected_error
      /\ (forall j, (j < k)%nat ->
                    exists r,
                      fst (trial Fixture.sweep no_kwargs j
                             (regenerated j Fixture.world)) = Ok r)
      /\ (circuit Fixture.world, rng Fixture.world)
         = after_rounds k (circuit Fixture.world) (rng Fixture.world).
Proof.
  split; [exact fixture_unconnected_monte_carlo|].
  exact (monte_carlo_stops_at_first_failure _ _ _ _ _ _
           fixture_unconnected_monte_carlo).
Defined.

(** X13 on the test circuit, three runs. *)
Lemma monte_carlo_results_share_axis_witness :
  exists rs w',
    MonteCarloSweepSimulator_simulate (connect Fixture.sweep 0%nat 1%nat)
      3 no_kwargs Fixture.world
    = (Ok rs, w')
    /\ length rs = Z.to_nat 3
    /\ Forall (fun r => fst r
                        = sweep_axis (connect Fixture.sweep 0%nat 1%nat)
                            no_kwargs) rs.
Proof.
  destruct (fixture_monte_carlo 3) as (rs & w' & Hrun).
  exists rs, w'. split; [exact Hrun|].
  exact (monte_carlo_results_share_axis _ _ _ _ _ _ Hrun).
Defined.

(** X14 on the test circuit: [s_parameters_method] passed by the caller. *)
Lemma monte_carlo_rejects_duplicate_keywords_witness :
  exists msg,
    MonteCarloSweepSimulator_simulate (connect Fixture.sweep 0%nat 1%nat) 3
      {| kw_dB := None; kw_freq := None; kw_freqs := None;
         kw_s_parameters_method := Some s_parameters |} Fixture.world
    = (Raise (TypeError msg), Fixture.world).
Proof.
  apply (monte_carlo_rejects_duplicate_keywords
           (connect Fixture.sweep 0%nat 1%nat) 3).
  - lia.
  - left. discriminate.
Defined.

(** X15 on the test circuit, the bounds of the default sweep. *)
Lemma sweep_wavelength_mode_returns_bounds_witness :
  exists sim out ratios w',
    SweepSimulator___init__ 1.5e-6 1.6e-6 3 = Ok sim
    /\ SweepSimulator_simulate (connect sim 0%nat 1%nat) no_kwargs
         Fixture.world
       = (Ok (out, ratios), w')
    /\ exists wavelengths,
        out = Some (Array1 wavelengths)
        /\ length wavelengths = Z.to_nat 3
        /\ nth 0 wavelengths 0 = 1.5e-6
        /\ nth (Z.to_nat 3 - 1) wavelengths 0 = 1.6e-6
        /\ ascending wavelengths.
Proof.
  destruct (init_outcome 1.5e-6 1.6e-6 3 ltac:(lia) ltac:(intros; split; lra)) as (sim & E & _).
  exists sim. do 3 eexists. split; [exact E|].
  split; [exact (fixture_wavelength_sweep sim _ Fixture.world E eq_refl)|].
  refine (sweep_wavelength_mode_returns_bounds 1.5e-6 1.6e-6 3 sim _ _
            no_kwargs _ _ _ _ _ _ _ _ E eq_refl
            (fixture_wavelength_sweep sim _ Fixture.world E eq_refl));
    try lra; lia.
Defined.

(** X16 on the test circuit, five frequencies. *)
Lemma sweep_frequency_mode_returns_grid_witness :
  exists sim out ratios w',
    SweepSimulator___init__ 1.87e14 2e14 5 = Ok sim
    /\ SweepSimulator_simulate (connect sim 0%nat 1%nat) no_kwargs
         Fixture.world
       = (Ok (out, ratios), w')
    /\ out = Some (Array1 (freqs sim))
    /\ length (freqs sim) = Z.to_nat 5
    /\ nth 0 (freqs sim) 0 = 1.87e14
    /\ nth (Z.to_nat 5 - 1) (freqs sim) 0 = 2e14
    /\ ascending (freqs sim).
Proof.
  destruct (init_outcome 1.87e14 2e14 5 ltac:(lia) ltac:(intros; lra)) as (sim & E & _).
  pose proof (fixture_sweep sim _ None Fixture.world eq_refl) as Hrun.
  exists sim. do 3 eexists. split; [exact E|].
  split; [exact Hrun|].
  destruct (sweep_frequency_mode_returns_grid 1.87e14 2e14 5 sim _ _
              no_kwargs _ _ _ _ ltac:(lra) ltac:(lra) ltac:(lia) E eq_refl
              Hrun)
    as (Hout & Hlen & Hfirst & Hlast & Hasc & _).
  repeat split; assumption.
Defined.

(** X17 on the test circuit: a sweep called with [freq]. *)
Lemma sweep_freq_replaces_grid_witness :
  (forall grid,
      SweepSimulator_simulate
        (with_grid (connect Fixture.sweep 0%nat 1%nat) grid)
        {| kw_dB := None; kw_freq := Some 1.9e14; kw_freqs := None;
           kw_s_parameters_method := None |} Fixture.world
      = SweepSimulator_simulate (connect Fixture.sweep 0%nat 1%nat)
          {| kw_dB := None; kw_freq := Some 1.9e14; kw_freqs := None;
             kw_s_parameters_method := None |} Fixture.world)
  /\ forall out ratios w',
      SweepSimulator_simulate (connect Fixture.sweep 0%nat 1%nat)
        {| kw_dB := None; kw_freq := Some 1.9e14; kw_freqs := None;
           kw_s_parameters_method := None |} Fixture.world
      = (Ok (out, ratios), w') ->
      out = Some (Scalar0 1.9e14).
Proof.
  apply (sweep_freq_replaces_grid (connect Fixture.sweep 0%nat 1%nat)
           {| kw_dB := None; kw_freq := Some 1.9e14; kw_freqs := None;
              kw_s_parameters_method := None |} 1.9e14 Fixture.world eq_refl).
  lra.
Defined.

(** X18.  The ANN model sees the relative deviation only through the
    perturbed length: a call with length [L] and deviation [d] has the
    outcome of the call with length [L + L*d] and no deviation, whether it
    returns or raises. *)
Theorem ANN_WG_deviation_rescales_length (coeffs frequency : list R)
  (L width thickness delta_length : R) :
  ANN_WG.get_s_parameters coeffs frequency L width thickness delta_length
  = ANN_WG.get_s_parameters coeffs frequency (L + L * delta_length) width
      thickness 0.
Proof.
  unfold ANN_WG.get_s_parameters.
  destruct (ANN_WG.straightWaveguide coeffs _ width thickness 90)
    as [neff|e]; [|reflexivity].
  cbn [rbind].
  replace (L + L * delta_length + (L + L * delta_length) * 0)
    with (L + L * delta_length) by ring.
  reflexivity.
Qed.
